(** * drive-to-notion: the markdown-to-blocks converter and the batch emitter

    A shallow embedding of [src/lib/markdown-to-blocks.ts] (the converter
    from an mdast tree to Notion blocks) and of [appendBlocksInBatches] in
    [src/lib/notion.ts], with the properties the specification states about
    them; then of the rest of the Notion client, of the drive traversal, of
    the credential parsing and the URL-safe encoding of
    [src/lib/google-drive.ts] and of the sync loop of [src/index.ts], with
    properties read off the code. *)

From Stdlib Require Import List String Ascii Bool Arith ZArith Lia DecimalString.
From Stdlib Require PrimFloat.
From Equations Require Import Equations.
Import ListNotations.
Open Scope string_scope.
Open Scope list_scope.

Set Implicit Arguments.
Set Warnings "-register-all".

(* ===================================================================== *)
(** ** JavaScript array and string primitives used by the source          *)
(* ===================================================================== *)

(** The one-character string ["\n"]. *)
Definition LF : string := String (ascii_of_nat 10) EmptyString.

(** [Array.prototype.slice]'s clamping of a relative index [k] against the
    array length [len]: a negative index counts from the end. *)
Definition relative_index (len k : Z) : Z :=
  if (k <? 0)%Z then Z.max (len + k) 0 else Z.min k len.

(** [arr.slice(start, end)]: the elements from [start] up to, not
    including, [end]; empty when the clamped [end] is not past the clamped
    [start]. *)
Definition slice {A : Type} (arr : list A) (start end_ : Z) : list A :=
  let len := Z.of_nat (List.length arr) in
  let from := relative_index len start in
  let final := relative_index len end_ in
  firstn (Z.to_nat (final - from)) (skipn (Z.to_nat from) arr).

(** [arr.join(sep)] on an array of strings. *)
Fixpoint join (sep : string) (arr : list string) : string :=
  match arr with
  | [] => EmptyString
  | [s] => s
  | s :: rest => (s ++ sep ++ join sep rest)%string
  end.

(** JavaScript truthiness of a string: only the empty string is falsy. *)
Definition truthy_string (s : string) : bool :=
  match s with
  | EmptyString => false
  | String _ _ => true
  end.

(* ===================================================================== *)
(** ** The mdast document tree (input)                                    *)
(* ===================================================================== *)

(** [PhrasingContent] of mdast.  The converter reads [value], [url] and
    [children]; the other fields of the skipped kinds are kept as data. *)
Inductive PhrasingContent : Type :=
| Text (value : string)
| Strong (children : list PhrasingContent)
| Emphasis (children : list PhrasingContent)
| Delete (children : list PhrasingContent)
| InlineCode (value : string)
| Link (url : string) (children : list PhrasingContent)
| Break
| Image (url : string)
| ImageReference (identifier : string)
| LinkReference (identifier : string) (children : list PhrasingContent)
| FootnoteReference (identifier : string)
| InlineHtml (value : string).

Definition TableCell : Type := list PhrasingContent.
Definition TableRow : Type := list TableCell.

(** [BlockContent | DefinitionContent] of mdast.  [ordered] of a list is
    [boolean | null | undefined] and only tested for truthiness; [lang] of
    a code block is [string | null | undefined]. *)
Inductive BlockContent : Type :=
| Paragraph (children : list PhrasingContent)
| Heading (depth : nat) (children : list PhrasingContent)
| Blockquote (children : list BlockContent)
| Code (value : string) (lang : option string)
| List (ordered : option bool) (items : list ListItem)
| ThematicBreak
| Table (rows : list TableRow)
| Html (value : string)
| Definition_ (identifier url : string)
| FootnoteDefinition (identifier : string) (children : list BlockContent)
with ListItem : Type :=
| MkListItem (children : list BlockContent).

(** A child of [Root]: mdast's [RootContent] is the union of every node
    kind, so besides block content a (malformed) root may hold phrasing
    nodes and kinds that are neither (listItem, tableRow, tableCell, yaml),
    the latter kept by their [type] tag. *)
Inductive RootContent : Type :=
| RootBlock (node : BlockContent)
| RootPhrasing (node : PhrasingContent)
| RootOther (type : string).

Definition Root : Type := list RootContent.

(* ===================================================================== *)
(** ** Notion rich text and blocks (output)                               *)
(* ===================================================================== *)

Record Annotations : Type := MkAnnotations {
  bold : bool;
  italic : bool;
  strikethrough : bool;
  underline : bool;
  code : bool;
  color : string
}.

(** The [text] member of a span: [link] is [{ url } | null]. *)
Record TextObject : Type := MkText {
  content : string;
  link : option string
}.

(** [NotionRichText]; its [type] member is the constant ["text"].  Every
    span the converter builds carries a complete [annotations] record. *)
Record NotionRichText : Type := MkRichText {
  text : TextObject;
  annotations : Annotations
}.

Inductive NotionBlock : Type :=
| paragraph (rich_text : list NotionRichText)
| heading_1 (rich_text : list NotionRichText)
| heading_2 (rich_text : list NotionRichText)
| heading_3 (rich_text : list NotionRichText)
| bulleted_list_item (rich_text : list NotionRichText)
| numbered_list_item (rich_text : list NotionRichText)
| quote (rich_text : list NotionRichText)
| code_block (rich_text : list NotionRichText) (language : string)
| divider.

(** The annotation literal that the source writes out at every span it
    creates: all flags false, colour ["default"]. *)
Definition default_annotations : Annotations :=
  {| bold := false; italic := false; strikethrough := false;
     underline := false; code := false; color := "default" |}.

(** [{ type: "text", text: { content: s, link: null }, annotations: {all
    false, color: "default"} }]. *)
Definition plain_span (s : string) : NotionRichText :=
  {| text := {| content := s; link := None |};
     annotations := default_annotations |}.

Definition space_span : NotionRichText := plain_span " ".
Definition newline_span : NotionRichText := plain_span LF.

(** [{ ...r, annotations: { ...r.annotations, bold: true } }] and its
    siblings for [italic] and [strikethrough]. *)
Definition with_bold (r : NotionRichText) : NotionRichText :=
  let a := annotations r in
  {| text := text r;
     annotations := {| bold := true; italic := italic a;
                       strikethrough := strikethrough a;
                       underline := underline a; code := code a;
                       color := color a |} |}.

Definition with_italic (r : NotionRichText) : NotionRichText :=
  let a := annotations r in
  {| text := text r;
     annotations := {| bold := bold a; italic := true;
                       strikethrough := strikethrough a;
                       underline := underline a; code := code a;
                       color := color a |} |}.

Definition with_strikethrough (r : NotionRichText) : NotionRichText :=
  let a := annotations r in
  {| text := text r;
     annotations := {| bold := bold a; italic := italic a;
                       strikethrough := true;
                       underline := underline a; code := code a;
                       color := color a |} |}.

(** [{ ...r, text: { content: r.text.content, link: { url } } }]. *)
Definition with_link (url : string) (r : NotionRichText) : NotionRichText :=
  {| text := {| content := content (text r); link := Some url |};
     annotations := annotations r |}.

(* ===================================================================== *)
(** ** The inline span converter and the plain-text extractor             *)
(* ===================================================================== *)

(** The body of the [for (const node of nodes)] loop of
    [phrasingToRichText]: the spans one node pushes onto [result]. *)
Fixpoint phrasingNodeToRichText (node : PhrasingContent)
  : list NotionRichText :=
  match node with
  | Text value => [plain_span value]
  | Strong children =>
      map with_bold (flat_map phrasingNodeToRichText children)
  | Emphasis children =>
      map with_italic (flat_map phrasingNodeToRichText children)
  | Delete children =>
      map with_strikethrough (flat_map phrasingNodeToRichText children)
  | InlineCode value =>
      [{| text := {| content := value; link := None |};
          annotations := {| bold := false; italic := false;
                            strikethrough := false; underline := false;
                            code := true; color := "default" |} |}]
  | Link url children =>
      map (with_link url) (flat_map phrasingNodeToRichText children)
  | Break => [newline_span]
  | Image _ | ImageReference _ | LinkReference _ _
  | FootnoteReference _ | InlineHtml _ => []
  end.

Definition phrasingToRichText (nodes : list PhrasingContent)
  : list NotionRichText :=
  flat_map phrasingNodeToRichText nodes.

(** What one node appends to [out] in [getPhrasingText]. *)
Fixpoint phrasingNodeText (node : PhrasingContent) : string :=
  match node with
  | Text value => value
  | Strong children | Emphasis children | Delete children
  | Link _ children =>
      fold_right append EmptyString (map phrasingNodeText children)
  | InlineCode value => value
  | Break => LF
  | Image _ | ImageReference _ | LinkReference _ _
  | FootnoteReference _ | InlineHtml _ => EmptyString
  end.

Definition getPhrasingText (nodes : list PhrasingContent) : string :=
  fold_right append EmptyString (map phrasingNodeText nodes).

(* ===================================================================== *)
(** ** The block mapper and the document walker                           *)
(* ===================================================================== *)

(** The statement the source repeats after converting the children of a
    paragraph, a heading and a list item:
    [if (richText.length === 0) richText.push(<space span>)]. *)
Definition pad_empty (richText : list NotionRichText)
  : list NotionRichText :=
  match richText with
  | [] => [space_span]
  | _ :: _ => richText
  end.

(** [item.children[0]] is read with optional chaining, so an item without
    children falls to the second return. *)
Definition listItemToRichText (item : ListItem) : list NotionRichText :=
  match item with
  | MkListItem (Paragraph children :: _) => phrasingToRichText children
  | MkListItem _ => phrasingToRichText []
  end.

(** JavaScript truthiness of [list.ordered]. *)
Definition truthy_flag (flag : option bool) : bool :=
  match flag with
  | Some true => true
  | _ => false
  end.

(** [processBlock(node, listOrdered?)].  The optional second parameter is
    never read by the body and never passed by a caller, so it is left
    out.  The loops that push onto [richTextParts] and [blocks] are
    written as [flat_map] and [map] over the children. *)
Fixpoint processBlock (node : BlockContent) : list NotionBlock :=
  match node with
  | Paragraph children =>
      [paragraph (pad_empty (phrasingToRichText children))]
  | Heading depth children =>
      let block := pad_empty (phrasingToRichText children) in
      if (depth =? 1)%nat then [heading_1 block]
      else if (depth =? 2)%nat then [heading_2 block]
      else [heading_3 block]
  | Blockquote children =>
      let richTextParts :=
        flat_map
          (fun child =>
             match child with
             | Paragraph grandchildren =>
                 phrasingToRichText grandchildren ++ [newline_span]
             | _ =>
                 match processBlock child with
                 | paragraph rich_text :: _ => rich_text
                 | _ => []
                 end
             end)
          children in
      let richText :=
        if (0 <? List.length richTextParts)%nat
        then slice richTextParts 0 (-1)
        else [space_span] in
      [quote richText]
  | Code value lang =>
      [code_block [plain_span value]
         (match lang with Some l => l | None => "plain text" end)]
  | List ordered items =>
      map
        (fun item =>
           let richText := pad_empty (listItemToRichText item) in
           if truthy_flag ordered
           then numbered_list_item richText
           else bulleted_list_item richText)
        items
  | ThematicBreak => [divider]
  | Table table_rows =>
      let rows :=
        join LF
          (map (fun row => join " | " (map getPhrasingText row))
             table_rows) in
      [paragraph [plain_span (if truthy_string rows then rows else " ")]]
  | Html _ | Definition_ _ _ | FootnoteDefinition _ _ =>
      [paragraph [space_span]]
  end.

(** What one iteration of the loop over [root.children] pushes onto
    [blocks].  The third [if] of the source names html, definition and
    footnoteDefinition (with the phrasing kinds) and does [continue]; a
    kind named by no [if] (text, listItem, yaml, ...) pushes nothing
    either. *)
Definition rootNodeToBlocks (node : RootContent) : list NotionBlock :=
  match node with
  | RootBlock (Paragraph _ as n) | RootBlock (Heading _ _ as n) =>
      processBlock n
  | RootBlock (Blockquote _ as n) | RootBlock (Code _ _ as n)
  | RootBlock (List _ _ as n) | RootBlock (ThematicBreak as n)
  | RootBlock (Table _ as n) =>
      processBlock n
  | RootBlock (Html _) | RootBlock (Definition_ _ _)
  | RootBlock (FootnoteDefinition _ _) => []
  | RootPhrasing _ => []
  | RootOther _ => []
  end.

(** The walk of [markdownToNotionBlocks] over the parsed tree. *)
Definition rootToNotionBlocks (root : Root) : list NotionBlock :=
  flat_map rootNodeToBlocks root.

(** [markdownToNotionBlocks(markdown)]; the parser [fromMarkdown] of
    mdast-util-from-markdown is a library outside the repository and is
    taken as a parameter. *)
Definition markdownToNotionBlocks (fromMarkdown : string -> Root)
  (markdown : string) : list NotionBlock :=
  rootToNotionBlocks (fromMarkdown markdown).

(* ===================================================================== *)
(** ** The converter under the engine's limit on call arguments           *)
(* ===================================================================== *)

(** How a synchronous call completes when the one exception followed is
    the [RangeError] the engine throws for a call with too many
    arguments. *)
Inductive Completion (A : Type) : Type :=
| Completed (value : A)
| RangeError.
Arguments Completed {A} value.
Arguments RangeError {A}.

Section ArgumentLimit.

(** The largest number of arguments the engine accepts in one call. *)
Variable max_arguments : nat.

(** [array.push(...items)]: a call with one argument per element of
    [items]. *)
Definition push_spread {A : Type} (array items : list A)
  : Completion (list A) :=
  if (List.length items <=? max_arguments)%nat
  then Completed (array ++ items)
  else RangeError.

(** The loop over the children of a blockquote, entered with the parts
    pushed so far; [mapBlock] is the recursive call of [processBlock]. *)
Fixpoint quoteParts_limited
  (mapBlock : BlockContent -> Completion (list NotionBlock))
  (remaining : list BlockContent) (richTextParts : list NotionRichText)
  : Completion (list NotionRichText) :=
  match remaining with
  | [] => Completed richTextParts
  | Paragraph grandchildren :: rest =>
      match push_spread richTextParts (phrasingToRichText grandchildren) with
      | Completed parts =>
          quoteParts_limited mapBlock rest (parts ++ [newline_span])
      | RangeError => RangeError
      end
  | child :: rest =>
      match mapBlock child with
      | Completed (paragraph rich_text :: _) =>
          match push_spread richTextParts rich_text with
          | Completed parts => quoteParts_limited mapBlock rest parts
          | RangeError => RangeError
          end
      | Completed _ => quoteParts_limited mapBlock rest richTextParts
      | RangeError => RangeError
      end
  end.

(** [processBlock] with the two spreads of its blockquote branch
    followed; the other branches spread nothing and call nothing that
    does. *)
Fixpoint processBlock_limited (node : BlockContent)
  : Completion (list NotionBlock) :=
  match node with
  | Blockquote children =>
      match quoteParts_limited processBlock_limited children [] with
      | Completed richTextParts =>
          Completed
            [quote (if (0 <? List.length richTextParts)%nat
                    then slice richTextParts 0 (-1)
                    else [space_span])]
      | RangeError => RangeError
      end
  | _ => Completed (processBlock node)
  end.

(** The loop of [markdownToNotionBlocks] over [root.children], entered
    with the blocks pushed so far: [blocks.push(...processBlock(node))]
    for the seven mapped kinds, nothing for the others. *)
Fixpoint walk_limited (remaining : list RootContent)
  (blocks : list NotionBlock) : Completion (list NotionBlock) :=
  match remaining with
  | [] => Completed blocks
  | node :: rest =>
      match node with
      | RootBlock (Paragraph _ as n) | RootBlock (Heading _ _ as n)
      | RootBlock (Blockquote _ as n) | RootBlock (Code _ _ as n)
      | RootBlock (List _ _ as n) | RootBlock (ThematicBreak as n)
      | RootBlock (Table _ as n) =>
          match processBlock_limited n with
          | Completed out =>
              match push_spread blocks out with
              | Completed blocks' => walk_limited rest blocks'
              | RangeError => RangeError
              end
          | RangeError => RangeError
          end
      | RootBlock (Html _) | RootBlock (Definition_ _ _)
      | RootBlock (FootnoteDefinition _ _) => walk_limited rest blocks
      | RootPhrasing _ | RootOther _ => walk_limited rest blocks
      end
  end.

(** [markdownToNotionBlocks(markdown)] under the argument limit. *)
Definition markdownToNotionBlocks_limited (fromMarkdown : string -> Root)
  (markdown : string) : Completion (list NotionBlock) :=
  walk_limited (fromMarkdown markdown) [].

End ArgumentLimit.

(** A list item holding the one paragraph ["x"]. *)
Definition sample_item : ListItem := MkListItem [Paragraph [Text "x"]].

(* ===================================================================== *)
(** ** The batch emitter of the Notion client                             *)
(* ===================================================================== *)

(** What [notionFetch] sends for an append: the path, the HTTP method, the
    bearer token and the [children] member of the JSON body. *)
Record FetchRequest : Type := MkRequest {
  request_path : string;
  request_method : string;
  request_bearer : string;
  request_children : list NotionBlock
}.

(** What the caller reads of a [Response]: [ok], [status] and the body
    text. *)
Record FetchResponse : Type := MkResponse {
  response_ok : bool;
  response_status : nat;
  response_text : string
}.

(** How an [async] function settles: it returns, or it throws an [Error]
    with a message. *)
Inductive Settled (A : Type) : Type :=
| Resolved (value : A)
| Rejected (message : string).
Arguments Resolved {A} value.
Arguments Rejected {A} message.

Definition BLOCKS_PER_REQUEST : nat := 100.

(** A number inside a template literal. *)
Definition number_to_string (n : nat) : string :=
  NilZero.string_of_uint (Nat.to_uint n).

Section BatchEmitter.

(** The remote service: its answer to a request, given the requests
    issued before it. *)
Variable server : list FetchRequest -> FetchRequest -> FetchResponse.

Variables apiKey blockId : string.
Variable blocks : list NotionBlock.

Definition appendRequest (batch : list NotionBlock) : FetchRequest :=
  {| request_path := "/blocks/" ++ blockId ++ "/children";
     request_method := "PATCH";
     request_bearer := apiKey;
     request_children := batch |}.

(** The [for (let i = 0; i < blocks.length; i += BLOCKS_PER_REQUEST)]
    loop, entered with counter [i] after the requests [issued]; the
    result pairs the requests issued when the function settles with how
    it settles. *)
Equations? appendLoop (i : nat) (issued : list FetchRequest)
  : list FetchRequest * Settled unit
  by wf (List.length blocks - i) lt :=
  appendLoop i issued with lt_dec i (List.length blocks) => {
    | left _ =>
        let batch :=
          slice blocks (Z.of_nat i) (Z.of_nat (i + BLOCKS_PER_REQUEST)) in
        let response := server issued (appendRequest batch) in
        if response_ok response
        then appendLoop (i + BLOCKS_PER_REQUEST)
               (issued ++ [appendRequest batch])
        else (issued ++ [appendRequest batch],
              Rejected ("Notion append blocks failed: "
                        ++ number_to_string (response_status response)
                        ++ " " ++ response_text response)%string)
    | right _ => (issued, Resolved tt) }.
Proof. unfold BLOCKS_PER_REQUEST. lia. Qed.

Definition appendBlocksInBatches (issued : list FetchRequest)
  : list FetchRequest * Settled unit :=
  appendLoop 0 issued.

End BatchEmitter.

(* ===================================================================== *)
(** ** Vocabulary of the specification                                    *)
(* ===================================================================== *)

(** The span list a block carries; a divider carries none. *)
Definition block_rich_text (b : NotionBlock)
  : option (list NotionRichText) :=
  match b with
  | paragraph rt | heading_1 rt | heading_2 rt | heading_3 rt
  | bulleted_list_item rt | numbered_list_item rt | quote rt
  | code_block rt _ => Some rt
  | divider => None
  end.

(** Invariant 1 of the specification on one block. *)
Definition spans_nonempty (b : NotionBlock) : bool :=
  match block_rich_text b with
  | Some [] => false
  | _ => true
  end.

(** The span list of the first block of a sequence, whatever its type. *)
Definition first_block_spans (out : list NotionBlock)
  : list NotionRichText :=
  match out with
  | b :: _ => match block_rich_text b with Some rt => rt | None => [] end
  | [] => []
  end.

(** The blockquote rule in the specification's words, for comparison with
    [processBlock]: a paragraph child gives its spans, with a newline span
    after it when the next child is a paragraph too; any other child gives
    the span list of the first block it maps to. *)
Fixpoint spec_quote_spans (children : list BlockContent)
  : list NotionRichText :=
  match children with
  | [] => []
  | Paragraph grandchildren :: rest =>
      phrasingToRichText grandchildren
      ++ match rest with
         | Paragraph _ :: _ => [newline_span]
         | _ => []
         end
      ++ spec_quote_spans rest
  | child :: rest =>
      first_block_spans (processBlock child) ++ spec_quote_spans rest
  end.

(** The content string of a table, as [processBlock] computes it. *)
Definition table_text (rows : list TableRow) : string :=
  join LF (map (fun row => join " | " (map getPhrasingText row)) rows).

(** What a blockquote child contributes to the quote in the code, by kind:
    the spans and a newline span for a paragraph, the single span of the
    paragraph block that a table or an unsupported node maps to, nothing
    for a child whose first block is not a paragraph block. *)
Definition quote_contribution (child : BlockContent)
  : list NotionRichText :=
  match child with
  | Paragraph grandchildren =>
      phrasingToRichText grandchildren ++ [newline_span]
  | Table rows =>
      [plain_span (if truthy_string (table_text rows)
                   then table_text rows else " ")]
  | Html _ | Definition_ _ _ | FootnoteDefinition _ _ => [space_span]
  | Heading _ _ | Blockquote _ | Code _ _ | List _ _ | ThematicBreak => []
  end.

(** The spans of a list item in the specification's words: those of its
    first child when that child is a paragraph, a single space span when
    that gives nothing. *)
Definition item_spans (item : ListItem) : list NotionRichText :=
  match item with
  | MkListItem (Paragraph grandchildren :: _) =>
      match phrasingToRichText grandchildren with
      | [] => [space_span]
      | spans => spans
      end
  | MkListItem _ => [space_span]
  end.

(** The block kinds without a mapping of their own. *)
Definition unsupported_block (node : BlockContent) : bool :=
  match node with
  | Html _ | Definition_ _ _ | FootnoteDefinition _ _ => true
  | _ => false
  end.

(** The phrasing kinds both walks skip. *)
Definition ignored_phrasing (node : PhrasingContent) : bool :=
  match node with
  | Image _ | ImageReference _ | LinkReference _ _
  | FootnoteReference _ | InlineHtml _ => true
  | _ => false
  end.

(** How many blocks a node yields: one per item for a list, one
    otherwise. *)
Definition block_count (node : BlockContent) : nat :=
  match node with
  | List _ items => List.length items
  | _ => 1
  end.

(** How many blocks a child of the root yields in the document walker. *)
Definition root_block_count (node : RootContent) : nat :=
  match node with
  | RootBlock n => if unsupported_block n then 0 else block_count n
  | RootPhrasing _ | RootOther _ => 0
  end.

(** The formatting wrappers of the phrasing grammar. *)
Inductive Wrapper : Type :=
| WStrong
| WEmphasis
| WDelete
| WLink (url : string).

Definition wrap (w : Wrapper) (children : list PhrasingContent)
  : PhrasingContent :=
  match w with
  | WStrong => Strong children
  | WEmphasis => Emphasis children
  | WDelete => Delete children
  | WLink url => Link url children
  end.

(** [nodes] enclosed in a chain of wrappers, the head of the chain
    outermost. *)
Fixpoint wrap_chain (chain : list Wrapper) (nodes : list PhrasingContent)
  : list PhrasingContent :=
  match chain with
  | [] => nodes
  | w :: inner => [wrap w (wrap_chain inner nodes)]
  end.

(** No flag that is set in [a] is cleared in [b], and the colour is
    kept. *)
Definition flags_kept (a b : Annotations) : Prop :=
  (bold a = true -> bold b = true)
  /\ (italic a = true -> italic b = true)
  /\ (strikethrough a = true -> strikethrough b = true)
  /\ (underline a = true -> underline b = true)
  /\ (code a = true -> code b = true)
  /\ color b = color a.

(** [outer] is [inner] after some wrappers: same content, no flag lost. *)
Definition span_kept (inner outer : NotionRichText) : Prop :=
  content (text outer) = content (text inner)
  /\ flags_kept (annotations inner) (annotations outer).

(** [outer] is [inner] with the link set to [url] and nothing else
    changed. *)
Definition span_linked (url : string) (inner outer : NotionRichText)
  : Prop :=
  link (text outer) = Some url
  /\ content (text outer) = content (text inner)
  /\ annotations outer = annotations inner.

(** The span transformer a wrapper applies to its children's spans. *)
Definition wrapper_effect (w : Wrapper) : NotionRichText -> NotionRichText :=
  match w with
  | WStrong => with_bold
  | WEmphasis => with_italic
  | WDelete => with_strikethrough
  | WLink url => with_link url
  end.

(** The concatenation of the content strings of a span list. *)
Definition span_contents (spans : list NotionRichText) : string :=
  fold_right append EmptyString (map (fun r => content (text r)) spans).

(** The requests of a run of the batch emitter carry these batches. *)
Definition batches_of (requests : list FetchRequest)
  : list (list NotionBlock) :=
  map request_children requests.

(** The sizes of the groups when [total] records are cut into groups of
    [BLOCKS_PER_REQUEST]: full groups, then the remainder if there is
    one. *)
Definition batch_sizes (total : nat) : list nat :=
  repeat BLOCKS_PER_REQUEST (total / BLOCKS_PER_REQUEST)
  ++ (if (total mod BLOCKS_PER_REQUEST =? 0)%nat then []
      else [total mod BLOCKS_PER_REQUEST]).

(** Sample documents. *)
Definition image_only_quote : Root :=
  [RootBlock (Blockquote [Paragraph [Image "cat.png"]])].

Definition html_between_paragraphs : Root :=
  [RootBlock (Paragraph [Text "A"]);
   RootBlock (Html "<hr>");
   RootBlock (Paragraph [Text "B"])].

Definition quoted_heading : BlockContent :=
  Blockquote [Heading 1 [Text "H"]].

Definition always_ok (issued : list FetchRequest) (request : FetchRequest)
  : FetchResponse :=
  {| response_ok := true; response_status := 200;
     response_text := EmptyString |}.

(* ===================================================================== *)
(** ** The rest of the converter                                          *)
(* ===================================================================== *)

(** The type guard [c.type === "text"] of [getBlockText]'s filters. *)
Definition is_text (c : PhrasingContent) : bool :=
  match c with
  | Text _ => true
  | _ => false
  end.

(** [c.value] on a node narrowed to a text node by the filter. *)
Definition text_value (c : PhrasingContent) : string :=
  match c with
  | Text value => value
  | _ => EmptyString
  end.

(** [getBlockText(node)], a helper the converter defines and never
    calls. *)
Fixpoint getBlockText (node : BlockContent) : string :=
  match node with
  | Paragraph children =>
      join EmptyString (map text_value (filter is_text children))
  | Heading _ children =>
      join EmptyString (map text_value (filter is_text children))
  | Blockquote children => join LF (map getBlockText children)
  | Code value _ => value
  | _ => EmptyString
  end.

(** The number of nodes under [node] that the span converter turns into a
    span: text, inline code and break nodes reached through the four
    wrappers. *)
Fixpoint span_leaves (node : PhrasingContent) : nat :=
  match node with
  | Text _ | InlineCode _ | Break => 1
  | Strong children | Emphasis children | Delete children
  | Link _ children => list_sum (map span_leaves children)
  | Image _ | ImageReference _ | LinkReference _ _
  | FootnoteReference _ | InlineHtml _ => 0
  end.

(** A span without underline and of the default colour. *)
Definition plain_style (r : NotionRichText) : Prop :=
  underline (annotations r) = false /\ color (annotations r) = "default".

(** Every span of a block is of plain style. *)
Definition plain_styled_block (block : NotionBlock) : Prop :=
  match block_rich_text block with
  | Some spans => Forall plain_style spans
  | None => True
  end.

(** A child of the root that is a blockquote whose children contribute
    exactly one span in total. *)
Definition one_span_quote (node : RootContent) : bool :=
  match node with
  | RootBlock (Blockquote children) =>
      (List.length (flat_map quote_contribution children) =? 1)%nat
  | _ => false
  end.

(** The block kinds that [processBlock] maps to a single paragraph block
    of a single span: tables and the unsupported kinds. *)
Definition single_span_paragraph (node : BlockContent) : bool :=
  match node with
  | Table _ | Html _ | Definition_ _ _ | FootnoteDefinition _ _ => true
  | _ => false
  end.

(** The answers of the service to the requests [new], issued one after
    the other after [issued]: whether each was accepted. *)
Fixpoint answers
  (server : list FetchRequest -> FetchRequest -> FetchResponse)
  (issued new : list FetchRequest) : list bool :=
  match new with
  | [] => []
  | request :: rest =>
      response_ok (server issued request)
        :: answers server (issued ++ [request]) rest
  end.

(** The message of the [Error] that [appendBlocksInBatches] throws on a
    refused request. *)
Definition append_failure (response : FetchResponse) : string :=
  ("Notion append blocks failed: "
   ++ number_to_string (response_status response)
   ++ " " ++ response_text response)%string.

(** A service that refuses its second request. *)
Definition refuses_second (issued : list FetchRequest)
  (request : FetchRequest) : FetchResponse :=
  match issued with
  | [_] => {| response_ok := false; response_status := 429;
              response_text := "rate limited" |}
  | _ => {| response_ok := true; response_status := 200;
            response_text := EmptyString |}
  end.

(* ===================================================================== *)
(** ** The Notion client: pages                                           *)
(* ===================================================================== *)

(** A property of a page as [runSync] reads it: [date] is
    [{ start } | null | undefined]; the [title] and [rich_text] members
    are never read. *)
Record PageProperty : Type := MkProperty {
  property_type : string;
  property_date : option string
}.

(** [NotionPage]; the [properties] object is kept as its key/value
    entries. *)
Record NotionPage : Type := MkPage {
  page_id : string;
  page_properties : list (string * PageProperty)
}.

Record NotionBlockChild : Type := MkChild {
  child_id : string;
  child_type : string
}.

(** The JSON body of a page of [GET /blocks/{id}/children]. *)
Record ChildrenPage : Type := MkChildrenPage {
  results : list NotionBlockChild;
  next_cursor : option string;
  has_more : bool
}.

(** [DriveFile]: [modifiedTime] and [parents] may be missing. *)
Record DriveFile : Type := MkDriveFile {
  file_id : string;
  file_name : string;
  mimeType : string;
  modifiedTime : option string;
  parents : option (list string)
}.

Record DriveFileListResponse : Type := MkFileList {
  files : list DriveFile;
  nextPageToken : option string
}.

(** The calls the worker makes to the two remote services, with the
    parameters that vary. *)
Inductive Call : Type :=
| QueryByDriveId (apiKey databaseId driveFileId : string)
| CreatePage (apiKey databaseId title driveFileId driveModified : string)
| AppendChildren (request : FetchRequest)
| GetChildren (apiKey blockId : string) (start_cursor : option string)
| DeleteBlock (apiKey blockId : string)
| UpdateModified (apiKey pageId driveModified : string)
| ListFiles (accessToken driveId parent : string)
    (pageToken : option string)
| ExportMarkdown (accessToken fileId : string).

(** The type the source casts the JSON body of a call's response to. *)
Definition body_of (call : Call) : Type :=
  match call with
  | QueryByDriveId _ _ _ => list NotionPage
  | CreatePage _ _ _ _ _ => string
  | AppendChildren _ => unit
  | GetChildren _ _ _ => ChildrenPage
  | DeleteBlock _ _ => unit
  | UpdateModified _ _ _ => unit
  | ListFiles _ _ _ _ => DriveFileListResponse
  | ExportMarkdown _ _ => unit
  end.

(** A [Response]: [ok], [status], the body as text ([response.text()]) and
    as JSON of the expected type ([response.json()]). *)
Record Reply (J : Type) : Type := MkReply {
  reply_ok : bool;
  reply_status : nat;
  reply_text : string;
  reply_json : J
}.

Definition Trace : Type := list Call.

(** The remote services: the response to a call, given the calls made
    before it. *)
Definition Service : Type :=
  forall (history : Trace) (call : Call), Reply (body_of call).

(** An [async] function: from the calls made so far to the calls made
    when it settles and how it settles; [None] when the run does not
    settle within the number of steps allowed. *)
Definition Async (A : Type) : Type := Trace -> option (Trace * Settled A).

Definition ret {A : Type} (a : A) : Async A :=
  fun trace => Some (trace, Resolved a).

Definition throw {A : Type} (message : string) : Async A :=
  fun trace => Some (trace, Rejected message).

Definition bind {A B : Type} (m : Async A) (k : A -> Async B) : Async B :=
  fun trace =>
    match m trace with
    | None => None
    | Some (trace', Resolved a) => k a trace'
    | Some (trace', Rejected message) => Some (trace', Rejected message)
    end.

Definition unsettled {A : Type} : Async A := fun _ => None.

Declare Scope async_scope.
Delimit Scope async_scope with async.
Notation "x <- m ;; k" := (bind m (fun x => k))
  (at level 61, m at next level, right associativity) : async_scope.
Notation "m ;;; k" := (bind m (fun _ => k))
  (at level 61, right associativity) : async_scope.

(** [`<what> failed: ${response.status} ${err}`]. *)
Definition failure_message (what : string) (J : Type) (response : Reply J)
  : string :=
  (what ++ number_to_string (reply_status response)
   ++ " " ++ reply_text response)%string.

(** The truthy value of a cursor or page token: [null], [undefined] and
    the empty string are falsy. *)
Definition truthy_token (token : option string) : option string :=
  match token with
  | Some t => if truthy_string t then Some t else None
  | None => None
  end.

Definition formatDateForNotion (isoDate : string) : string := isoDate.

Section NotionClient.

Variable service : Service.
Variable fromMarkdown : string -> Root.

(** [await fetch(...)] of one call. *)
Definition perform (call : Call) : Async (Reply (body_of call)) :=
  fun trace => Some (trace ++ [call], Resolved (service trace call)).

(** The service as [appendBlocksInBatches] sees it after the calls
    [trace]. *)
Definition append_server (trace : Trace)
  : list FetchRequest -> FetchRequest -> FetchResponse :=
  fun issued request =>
    let reply :=
      service (trace ++ map AppendChildren issued)
        (AppendChildren request) in
    {| response_ok := reply_ok reply;
       response_status := reply_status reply;
       response_text := reply_text reply |}.

(** [await appendBlocksInBatches(apiKey, blockId, blocks)]. *)
Definition appendBlocks (apiKey blockId : string)
  (blocks : list NotionBlock) : Async unit :=
  fun trace =>
    let run :=
      appendBlocksInBatches (append_server trace) apiKey blockId blocks [] in
    Some (trace ++ map AppendChildren (fst run), snd run).

Definition queryDatabaseByDriveId (apiKey databaseId driveFileId : string)
  : Async (option NotionPage) :=
  (response <- perform (QueryByDriveId apiKey databaseId driveFileId) ;;
   if negb (reply_ok response)
   then throw (failure_message "Notion query failed: " response)
   else ret (hd_error (reply_json response)))%async.

Definition createPage (apiKey databaseId : string)
  (title driveFileId driveModified markdown : string) : Async string :=
  let blocks := markdownToNotionBlocks fromMarkdown markdown in
  (createResponse <-
     perform (CreatePage apiKey databaseId title driveFileId
                (formatDateForNotion driveModified)) ;;
   if negb (reply_ok createResponse)
   then throw (failure_message "Notion create page failed: " createResponse)
   else
     let pageId : string := reply_json createResponse in
     (if (0 <? List.length blocks)%nat
      then appendBlocks apiKey pageId blocks
      else ret tt) ;;;
     ret pageId)%async.

(** The [do ... while (cursor)] loop of [getBlockChildren], entered with
    the children collected so far and the cursor; [pages] bounds the
    number of pages fetched. *)
Fixpoint getBlockChildrenLoop (pages : nat) (apiKey blockId : string)
  (all : list NotionBlockChild) (cursor : option string)
  : Async (list NotionBlockChild) :=
  match pages with
  | 0 => unsettled
  | S pages' =>
      (response <-
         perform (GetChildren apiKey blockId (truthy_token cursor)) ;;
       if negb (reply_ok response)
       then throw (failure_message "Notion get block children failed: "
                     response)
       else
         let data : ChildrenPage := reply_json response in
         let all' := all ++ results data in
         let cursor' := if has_more data then next_cursor data else None in
         match truthy_token cursor' with
         | Some _ => getBlockChildrenLoop pages' apiKey blockId all' cursor'
         | None => ret all'
         end)%async
  end.

Definition getBlockChildren (pages : nat) (apiKey blockId : string)
  : Async (list NotionBlockChild) :=
  getBlockChildrenLoop pages apiKey blockId [] None.

Definition deleteBlock (apiKey blockId : string) : Async unit :=
  (response <- perform (DeleteBlock apiKey blockId) ;;
   if negb (reply_ok response)
   then throw (failure_message "Notion delete block failed: " response)
   else ret tt)%async.

(** [for (const block of existingBlocks) await deleteBlock(...)]. *)
Fixpoint deleteBlocks (apiKey : string)
  (existingBlocks : list NotionBlockChild) : Async unit :=
  match existingBlocks with
  | [] => ret tt
  | block :: rest =>
      (deleteBlock apiKey (child_id block) ;;;
       deleteBlocks apiKey rest)%async
  end.

Definition updatePage (pages : nat) (apiKey pageId : string)
  (markdown driveModified : string) : Async unit :=
  let blocks := markdownToNotionBlocks fromMarkdown markdown in
  (existingBlocks <- getBlockChildren pages apiKey pageId ;;
   deleteBlocks apiKey existingBlocks ;;;
   (if (0 <? List.length blocks)%nat
    then appendBlocks apiKey pageId blocks
    else ret tt) ;;;
   updateResponse <-
     perform (UpdateModified apiKey pageId
                (formatDateForNotion driveModified)) ;;
   if negb (reply_ok updateResponse)
   then throw (failure_message "Notion update page failed: " updateResponse)
   else ret tt)%async.

End NotionClient.

(* ===================================================================== *)
(** ** The Drive client, the traversal and the sync loop                  *)
(* ===================================================================== *)

Definition GOOGLE_DOC_MIME : string := "application/vnd.google-apps.document".
Definition FOLDER_MIME : string := "application/vnd.google-apps.folder".

Record GoogleDocInfo : Type := MkDocInfo {
  doc_id : string;
  doc_name : string;
  doc_modifiedTime : string;
  doc_parents : option (list string)
}.

Record ListFilesParams : Type := MkListFilesParams {
  param_driveId : string;
  param_folderId : option string;
  param_pageToken : option string
}.

(** What the traversal pushes for a Google Doc:
    [modifiedTime: file.modifiedTime ?? ""]. *)
Definition docInfo (file : DriveFile) : GoogleDocInfo :=
  {| doc_id := file_id file;
     doc_name := file_name file;
     doc_modifiedTime :=
       match modifiedTime file with Some t => t | None => EmptyString end;
     doc_parents := parents file |}.

(** A value [JSON.parse] can return; a number is the double it denotes,
    an object the list of its own members, each key once (of a key the
    text repeats, [JSON.parse] keeps the last value only). *)
Inductive Json : Type :=
| JNull
| JBool (b : bool)
| JNumber (x : PrimFloat.float)
| JString (s : string)
| JArray (elements : list Json)
| JObject (members : list (string * Json)).

(** [members[key]] among the own members of an object. *)
Fixpoint own_member (key : string) (members : list (string * Json))
  : option Json :=
  match members with
  | [] => None
  | (k, v) :: rest =>
      if (k =? key)%string then Some v else own_member key rest
  end.

(** [value.key] on a value other than [null], for a key that no
    prototype defines (the three keys the parser reads): an own member
    of an object, [undefined] (here [None]) on anything else. *)
Definition member (key : string) (value : Json) : option Json :=
  match value with
  | JObject members => own_member key members
  | _ => None
  end.

(** Truthiness of what a member access gives: [undefined], [null],
    [false], zero, NaN and the empty string are falsy. *)
Definition truthy (value : option Json) : bool :=
  match value with
  | None => false
  | Some JNull => false
  | Some (JBool b) => b
  | Some (JNumber x) =>
      negb (PrimFloat.eqb x PrimFloat.zero || PrimFloat.is_nan x)
  | Some (JString s) => truthy_string s
  | Some (JArray _) | Some (JObject _) => true
  end.

(** What [parseServiceAccountJson] returns.  The declared type makes the
    e-mail and the client id strings; the cast of the parsed value is
    not checked, so they are the parsed members, whatever their kind. *)
Record ServiceAccountCredentials : Type := MkCredentials {
  client_email : Json;
  private_key : string;
  client_id : option Json
}.

(** The messages of the [TypeError]s of the engine of the worker (V8):
    for reading a member of [null], and for calling [replace] on a value
    that has no such method. *)
Definition null_member_error : string :=
  "Cannot read properties of null (reading 'client_email')".
Definition not_a_function_error : string :=
  "parsed.private_key.replace is not a function".

Definition missing_member_error : string :=
  "Invalid service account JSON: missing client_email or private_key".

(** [s.replace(/\\n/g, "\n")]: every backslash followed by the letter n
    becomes a newline character, scanning from the left. *)
Fixpoint replace_escaped_newlines (s : string) : string :=
  match s with
  | EmptyString => EmptyString
  | String c rest =>
      match rest with
      | String d rest' =>
          if (Ascii.eqb c "\" && Ascii.eqb d "n")%bool
          then String (ascii_of_nat 10) (replace_escaped_newlines rest')
          else String c (replace_escaped_newlines rest)
      | EmptyString => String c EmptyString
      end
  end.

(** [parseServiceAccountJson(json)], over the platform's [JSON.parse]
    (which throws on text that is not JSON).  A [TypeError] of the engine
    is kept by its message, like the errors the function throws
    itself. *)
Definition parseServiceAccountJson
  (JSON_parse : string -> Settled Json) (json : string)
  : Settled ServiceAccountCredentials :=
  match JSON_parse json with
  | Rejected message => Rejected message
  | Resolved JNull => Rejected null_member_error
  | Resolved parsed =>
      if (negb (truthy (member "client_email" parsed))
          || negb (truthy (member "private_key" parsed)))%bool
      then Rejected missing_member_error
      else
        match member "client_email" parsed, member "private_key" parsed with
        | Some email, Some (JString key) =>
            Resolved {| client_email := email;
                        private_key := replace_escaped_newlines key;
                        client_id := member "client_id" parsed |}
        | _, _ => Rejected not_a_function_error
        end
  end.

(** Does the substring [\n] (a backslash, then the letter n) occur? *)
Fixpoint has_escaped_newline (s : string) : bool :=
  match s with
  | EmptyString => false
  | String c rest =>
      match rest with
      | String d _ =>
          (Ascii.eqb c "\" && Ascii.eqb d "n") || has_escaped_newline rest
      | EmptyString => false
      end
  end.

(** [s.replace(/c/g, to)] for a one-character pattern. *)
Fixpoint replace_all (from to : ascii) (s : string) : string :=
  match s with
  | EmptyString => EmptyString
  | String c rest =>
      String (if Ascii.eqb c from then to else c) (replace_all from to rest)
  end.

(** [s.replace(/=+$/, "")]: the run of equals signs at the end of the
    string, if any, is removed. *)
Fixpoint strip_trailing_equals (s : string) : string :=
  match s with
  | EmptyString => EmptyString
  | String c rest =>
      match strip_trailing_equals rest with
      | EmptyString =>
          if Ascii.eqb c "=" then EmptyString else String c EmptyString
      | kept => String c kept
      end
  end.

(** [base64UrlEncode(data)], over the platform's [btoa];
    [String.fromCharCode(...data)] is the string of the bytes. *)
Definition base64UrlEncode (btoa : string -> string) (data : list ascii)
  : string :=
  let base64 := btoa (string_of_list_ascii data) in
  strip_trailing_equals
    (replace_all "/" "_" (replace_all "+" "-" base64)).

(** Does the character occur in the string? *)
Fixpoint occurs (c : ascii) (s : string) : bool :=
  match s with
  | EmptyString => false
  | String d rest => Ascii.eqb d c || occurs c rest
  end.

(** Is the last character of the string an equals sign? *)
Fixpoint ends_with_equals (s : string) : bool :=
  match s with
  | EmptyString => false
  | String c EmptyString => Ascii.eqb c "="
  | String _ rest => ends_with_equals rest
  end.

(** A string of equals signs only. *)
Fixpoint all_equals (s : string) : bool :=
  match s with
  | EmptyString => true
  | String c rest => Ascii.eqb c "=" && all_equals rest
  end.

Record Env : Type := MkEnv {
  GOOGLE_SERVICE_ACCOUNT_JSON : string;
  GOOGLE_IMPERSONATE_USER : string;
  GOOGLE_DRIVE_SHARED_DRIVE_ID : string;
  NOTION_API_KEY : string;
  NOTION_DATABASE_ID : string
}.

(** The counters [runSync] returns. *)
Record SyncResult : Type := MkSyncResult {
  synced : nat;
  skipped : nat;
  failed : nat
}.

(** How the [try] block of one iteration ends when it does not throw. *)
Inductive DocOutcome : Type :=
| DocSynced
| DocSkipped.

(** [try { m } catch (err) { handler }]. *)
Definition try_catch {A : Type} (m : Async A) (handler : string -> Async A)
  : Async A :=
  fun trace =>
    match m trace with
    | Some (trace', Rejected message) => handler message trace'
    | settled => settled
    end.

(** [page.properties[key]]. *)
Fixpoint lookup_property (key : string)
  (properties : list (string * PageProperty)) : option PageProperty :=
  match properties with
  | [] => None
  | (k, v) :: rest =>
      if (k =? key)%string then Some v else lookup_property key rest
  end.

(** [existing.properties["Drive Modified"]?.date?.start]. *)
Definition storedModified (existing : NotionPage) : option string :=
  match lookup_property "Drive Modified" (page_properties existing) with
  | Some property => property_date property
  | None => None
  end.

(** [storedModified && storedModified === driveModified]. *)
Definition unchanged (existing : NotionPage) (driveModified : string)
  : bool :=
  match truthy_token (storedModified existing) with
  | Some stored => (stored =? driveModified)%string
  | None => false
  end.

Section Worker.

Variable service : Service.
Variable fromMarkdown : string -> Root.
Variable JSON_parse : string -> Settled Json.

(** [getAccessToken] signs an assertion with the platform's
    [crypto.subtle] and exchanges it for a token; it is taken as given. *)
Variable getAccessToken : ServiceAccountCredentials -> string -> Async string.

Definition listFiles (accessToken : string) (params : ListFilesParams)
  : Async DriveFileListResponse :=
  let parent :=
    match truthy_token (param_folderId params) with
    | Some folderId => folderId
    | None => param_driveId params
    end in
  (response <-
     perform service
       (ListFiles accessToken (param_driveId params) parent
          (truthy_token (param_pageToken params))) ;;
   if negb (reply_ok response)
   then throw (failure_message "Drive listFiles failed: " response)
   else ret (reply_json response : DriveFileListResponse))%async.

(** The [for (const file of response.files)] loop of
    [listFilesRecursive]: a Google Doc is pushed onto [results], a folder
    is entered by the recursive call [enter], any other file is
    ignored. *)
Fixpoint eachFile
  (enter : string -> list GoogleDocInfo -> Async (list GoogleDocInfo))
  (remaining : list DriveFile) (results : list GoogleDocInfo)
  : Async (list GoogleDocInfo) :=
  match remaining with
  | [] => ret results
  | file :: rest =>
      if (mimeType file =? GOOGLE_DOC_MIME)%string
      then eachFile enter rest (results ++ [docInfo file])
      else if (mimeType file =? FOLDER_MIME)%string
      then (results' <- enter (file_id file) results ;;
            eachFile enter rest results')%async
      else eachFile enter rest results
  end.

(** [listFilesRecursive], entered at the page [pageToken] of the folder
    with the documents collected so far; it returns the array it was
    given, extended.  [depth] bounds the nesting of calls (one level per
    page fetched and per folder entered). *)
Fixpoint listFilesFrom (depth : nat) (accessToken driveId folderId : string)
  (pageToken : option string) (results : list GoogleDocInfo)
  : Async (list GoogleDocInfo) :=
  match depth with
  | 0 => unsettled
  | S depth' =>
      (response <-
         listFiles accessToken
           {| param_driveId := driveId;
              param_folderId := Some folderId;
              param_pageToken := pageToken |} ;;
       results' <-
         eachFile
           (fun subfolderId collected =>
              listFilesFrom depth' accessToken driveId subfolderId None
                collected)
           (files response) results ;;
       match truthy_token (nextPageToken response) with
       | Some _ =>
           listFilesFrom depth' accessToken driveId folderId
             (nextPageToken response) results'
       | None => ret results'
       end)%async
  end.

Definition listFilesRecursive (depth : nat)
  (accessToken driveId folderId : string) (results : list GoogleDocInfo)
  : Async (list GoogleDocInfo) :=
  listFilesFrom depth accessToken driveId folderId None results.

Definition listAllGoogleDocs (depth : nat) (accessToken driveId : string)
  : Async (list GoogleDocInfo) :=
  listFilesRecursive depth accessToken driveId driveId [].

Definition exportAsMarkdown (accessToken fileId : string) : Async string :=
  (response <- perform service (ExportMarkdown accessToken fileId) ;;
   if negb (reply_ok response)
   then throw (failure_message
                 ("Drive export failed for " ++ fileId ++ ": ") response)
   else ret (reply_text response))%async.

(** The [try] block of one iteration of the loop of [runSync].  The
    [console.log] calls are left out. *)
Definition syncDoc (pages : nat) (env : Env) (accessToken : string)
  (doc : GoogleDocInfo) : Async DocOutcome :=
  (existing <-
     queryDatabaseByDriveId service (NOTION_API_KEY env)
       (NOTION_DATABASE_ID env) (doc_id doc) ;;
   let driveModified := doc_modifiedTime doc in
   match existing with
   | Some page =>
       if unchanged page driveModified
       then ret DocSkipped
       else
         markdown <- exportAsMarkdown accessToken (doc_id doc) ;;
         updatePage service fromMarkdown pages (NOTION_API_KEY env)
           (page_id page) markdown driveModified ;;;
         ret DocSynced
   | None =>
       markdown <- exportAsMarkdown accessToken (doc_id doc) ;;
       createPage service fromMarkdown (NOTION_API_KEY env)
         (NOTION_DATABASE_ID env) (doc_name doc) (doc_id doc)
         driveModified markdown ;;;
       ret DocSynced
   end)%async.

Definition count (outcome : DocOutcome) (counters : SyncResult)
  : SyncResult :=
  match outcome with
  | DocSynced =>
      {| synced := S (synced counters); skipped := skipped counters;
         failed := failed counters |}
  | DocSkipped =>
      {| synced := synced counters; skipped := S (skipped counters);
         failed := failed counters |}
  end.

(** [for (const doc of docs) { try { ... } catch { failed++ } }]. *)
Fixpoint syncDocs (pages : nat) (env : Env) (accessToken : string)
  (docs : list GoogleDocInfo) (counters : SyncResult) : Async SyncResult :=
  match docs with
  | [] => ret counters
  | doc :: rest =>
      (counters' <-
         try_catch
           (outcome <- syncDoc pages env accessToken doc ;;
            ret (count outcome counters))
           (fun _ =>
              ret {| synced := synced counters;
                     skipped := skipped counters;
                     failed := S (failed counters) |}) ;;
       syncDocs pages env accessToken rest counters')%async
  end.

Definition runSync (depth pages : nat) (env : Env) : Async SyncResult :=
  match parseServiceAccountJson JSON_parse (GOOGLE_SERVICE_ACCOUNT_JSON env)
  with
  | Rejected message => throw message
  | Resolved credentials =>
      (accessToken <-
         getAccessToken credentials (GOOGLE_IMPERSONATE_USER env) ;;
       docs <-
         listAllGoogleDocs depth accessToken
           (GOOGLE_DRIVE_SHARED_DRIVE_ID env) ;;
       syncDocs pages env accessToken docs
         {| synced := 0; skipped := 0; failed := 0 |})%async
  end.

End Worker.

(* ===================================================================== *)
(** ** Vocabulary for the client and the worker                           *)
(* ===================================================================== *)

(** The call that writes the modification marker of a page. *)
Definition is_update (call : Call) : bool :=
  match call with
  | UpdateModified _ _ _ => true
  | _ => false
  end.

(** Were the calls [calls], made one after the other after [history],
    all accepted by the service? *)
Fixpoint replies_ok (service : Service) (history calls : Trace) : bool :=
  match calls with
  | [] => true
  | call :: rest =>
      reply_ok (service history call)
      && replies_ok service (history ++ [call]) rest
  end.

(** The call that deletes the block of a listed child. *)
Definition deletion (apiKey : string) (child : NotionBlockChild) : Call :=
  DeleteBlock apiKey (child_id child).

(** A service that accepts every call: queries find nothing, a created
    page gets the id ["page-1"], a page has the one child ["old-1"]. *)
Definition obliging : Service :=
  fun history call =>
    match call as c return Reply (body_of c) with
    | QueryByDriveId _ _ _ => MkReply true 200 EmptyString []
    | CreatePage _ _ _ _ _ => MkReply true 200 EmptyString "page-1"
    | AppendChildren _ => MkReply true 200 EmptyString tt
    | GetChildren _ _ _ =>
        MkReply true 200 EmptyString
          {| results := [{| child_id := "old-1"; child_type := "paragraph" |}];
             next_cursor := None; has_more := false |}
    | DeleteBlock _ _ => MkReply true 200 EmptyString tt
    | UpdateModified _ _ _ => MkReply true 200 EmptyString tt
    | ListFiles _ _ _ _ =>
        MkReply true 200 EmptyString {| files := []; nextPageToken := None |}
    | ExportMarkdown _ _ => MkReply true 200 "hi" tt
    end.

(** A parser that reads every text as the one paragraph ["hi"]. *)
Definition one_paragraph (markdown : string) : Root :=
  [RootBlock (Paragraph [Text "hi"])].

(** The files the service lists in answer to [call] after the calls
    [history]; none when the call is not a listing or is refused. *)
Definition listing (service : Service) (history : Trace) (call : Call)
  : list DriveFile :=
  match call as c return Reply (body_of c) -> list DriveFile with
  | ListFiles _ _ _ _ =>
      fun reply => if reply_ok reply then files (reply_json reply) else []
  | _ => fun _ => []
  end (service history call).

Definition is_listing (call : Call) : bool :=
  match call with
  | ListFiles _ _ _ _ => true
  | _ => false
  end.

(** [info] was read off a file that the service listed as a Google Doc in
    answer to a call made after [trace], on the way to [trace']. *)
Definition listed_as_doc (service : Service) (trace trace' : Trace)
  (info : GoogleDocInfo) : Prop :=
  exists before call after file,
    trace' = trace ++ before ++ call :: after
    /\ In file (listing service (trace ++ before) call)
    /\ mimeType file = GOOGLE_DOC_MIME
    /\ info = docInfo file.

(** What a run of the traversal started with [results] does when it
    settles: it makes listing calls only, and on success returns
    [results] followed by documents listed during the run. *)
Definition collects (service : Service) (results : list GoogleDocInfo)
  (run : Async (list GoogleDocInfo)) : Prop :=
  forall trace trace' out,
    run trace = Some (trace', out) ->
    exists new,
      trace' = trace ++ new
      /\ Forall (fun call => is_listing call = true) new
      /\ forall collected,
           out = Resolved collected ->
           exists added,
             collected = results ++ added
             /\ Forall (listed_as_doc service trace trace') added.

(** The children the service returns in answer to [call] after the calls
    [history]; none when the call does not list children. *)
Definition page_children (service : Service) (history : Trace) (call : Call)
  : list NotionBlockChild :=
  match call as c return Reply (body_of c) -> list NotionBlockChild with
  | GetChildren _ _ _ => fun reply => results (reply_json reply)
  | _ => fun _ => []
  end (service history call).

(** The children returned in answer to the calls [calls], made one after
    the other after [history]. *)
Fixpoint fetched (service : Service) (history calls : Trace)
  : list NotionBlockChild :=
  match calls with
  | [] => []
  | call :: rest =>
      page_children service history call
      ++ fetched service (history ++ [call]) rest
  end.

(** A call that lists the children of the block [blockId]. *)
Definition lists_children_of (apiKey blockId : string) (call : Call) : Prop :=
  exists cursor, call = GetChildren apiKey blockId cursor.

(** The calls of a successful update of a page with one old child and a
    one-paragraph document. *)
Definition sample_update_calls : Trace :=
  [GetChildren "key" "page" None;
   DeleteBlock "key" "old-1";
   AppendChildren (appendRequest "key" "page" [paragraph [plain_span "hi"]]);
   UpdateModified "key" "page" "2024-01-01"].

Definition sample_env : Env :=
  {| GOOGLE_SERVICE_ACCOUNT_JSON := "{}";
     GOOGLE_IMPERSONATE_USER := "user@example.com";
     GOOGLE_DRIVE_SHARED_DRIVE_ID := "drive";
     NOTION_API_KEY := "key";
     NOTION_DATABASE_ID := "db" |}.

Definition sample_account : Json :=
  JObject [("client_email", JString "bot@example.com");
           ("private_key", JString "pem")].

Definition sample_parse (json : string) : Settled Json :=
  Resolved sample_account.

Definition sample_token (credentials : ServiceAccountCredentials)
  (user : string) : Async string :=
  ret "token".

Definition sample_file : DriveFile :=
  {| file_id := "doc-1"; file_name := "Notes";
     mimeType := GOOGLE_DOC_MIME;
     modifiedTime := Some "2024-01-01"; parents := None |}.

(** A drive holding the one document [sample_file], next to a Notion
    database that accepts everything; [synced] tells whether the database
    already holds the page of the document, with the document's
    modification time as its marker. *)
Definition one_doc_world (synced : bool) : Service :=
  fun history call =>
    match call as c return Reply (body_of c) with
    | QueryByDriveId _ _ _ =>
        MkReply true 200 EmptyString
          (if synced
           then [{| page_id := "page-1";
                    page_properties :=
                      [("Drive Modified",
                        {| property_type := "date";
                           property_date := Some "2024-01-01" |})] |}]
           else [])
    | CreatePage _ _ _ _ _ => MkReply true 200 EmptyString "page-1"
    | AppendChildren _ => MkReply true 200 EmptyString tt
    | GetChildren _ _ _ =>
        MkReply true 200 EmptyString
          {| results := []; next_cursor := None; has_more := false |}
    | DeleteBlock _ _ => MkReply true 200 EmptyString tt
    | UpdateModified _ _ _ => MkReply true 200 EmptyString tt
    | ListFiles _ _ _ _ =>
        MkReply true 200 EmptyString
          {| files := [sample_file]; nextPageToken := None |}
    | ExportMarkdown _ _ => MkReply true 200 "hi" tt
    end.

(** The calls of a first sync of [one_doc_world false]. *)
Definition sample_sync_calls : Trace :=
  [ListFiles "token" "drive" "drive" None;
   QueryByDriveId "key" "db" "doc-1";
   ExportMarkdown "token" "doc-1";
   CreatePage "key" "db" "Notes" "doc-1" "2024-01-01";
   AppendChildren
     (appendRequest "key" "page-1" [paragraph [plain_span "hi"]])].

(* ===================================================================== *)
(** ** Auxiliary facts: arrays                                            *)
(* ===================================================================== *)

Lemma slice_drop_last (A : Type) (arr : list A) :
  slice arr 0 (-1) = removelast arr.
Proof.
  destruct arr as [|x rest _] using rev_ind; [reflexivity|].
  rewrite removelast_last. unfold slice, relative_index.
  rewrite length_app. simpl List.length.
  change (-1 <? 0)%Z with true. change (0 <? 0)%Z with false. cbv iota.
  rewrite Z.min_l by lia. rewrite Z.max_l by lia.
  replace (Z.to_nat (Z.of_nat (List.length rest + 1) + -1 - 0))
    with (List.length rest + 0) by lia.
  simpl (skipn _ _). rewrite firstn_app_2. simpl. apply app_nil_r.
Qed.

Lemma slice_window (A : Type) (arr : list A) (i n : nat) :
  slice arr (Z.of_nat i) (Z.of_nat (i + n)) = firstn n (skipn i arr).
Proof.
  unfold slice, relative_index.
  destruct (Z.ltb_spec (Z.of_nat i) 0); [lia|].
  destruct (Z.ltb_spec (Z.of_nat (i + n)) 0); [lia|].
  destruct (le_lt_dec (List.length arr) i) as [Hout|Hin].
  - rewrite !Z.min_r by lia.
    replace (Z.to_nat (Z.of_nat (List.length arr) - Z.of_nat (List.length arr)))
      with 0 by lia.
    rewrite (skipn_all2 arr Hout). now rewrite firstn_nil.
  - rewrite (Z.min_l (Z.of_nat i)) by lia. rewrite Nat2Z.id.
    destruct (le_lt_dec (i + n) (List.length arr)).
    + rewrite Z.min_l by lia. f_equal. lia.
    + rewrite Z.min_r by lia.
      replace (Z.to_nat (Z.of_nat (List.length arr) - Z.of_nat i))
        with (List.length (skipn i arr)) by (rewrite length_skipn; lia).
      rewrite firstn_all. symmetry. apply firstn_all2.
      rewrite length_skipn. lia.
Qed.

(* ===================================================================== *)
(** ** Auxiliary facts: induction over phrasing trees                     *)
(* ===================================================================== *)

Section PhrasingInduction.

Variable P : PhrasingContent -> Prop.

Hypothesis case_Text : forall value, P (Text value).
Hypothesis case_Strong :
  forall children, Forall P children -> P (Strong children).
Hypothesis case_Emphasis :
  forall children, Forall P children -> P (Emphasis children).
Hypothesis case_Delete :
  forall children, Forall P children -> P (Delete children).
Hypothesis case_InlineCode : forall value, P (InlineCode value).
Hypothesis case_Link :
  forall url children, Forall P children -> P (Link url children).
Hypothesis case_Break : P Break.
Hypothesis case_ignored :
  forall node, ignored_phrasing node = true -> P node.

Lemma PhrasingContent_tree_ind : forall node, P node.
Proof.
  fix IH 1.
  assert (all : forall nodes, Forall P nodes).
  { induction nodes as [|n rest IHrest]; constructor; [apply IH | exact IHrest]. }
  intros [value|children|children|children|value|url children| | | | | | ].
  - apply case_Text.
  - apply case_Strong, all.
  - apply case_Emphasis, all.
  - apply case_Delete, all.
  - apply case_InlineCode.
  - apply case_Link, all.
  - apply case_Break.
  - now apply case_ignored.
  - now apply case_ignored.
  - now apply case_ignored.
  - now apply case_ignored.
  - now apply case_ignored.
Qed.

End PhrasingInduction.

(* ===================================================================== *)
(** ** The inline span converter                                          *)
(* ===================================================================== *)

Lemma phrasingToRichText_cons node rest :
  phrasingToRichText (node :: rest)
  = phrasingNodeToRichText node ++ phrasingToRichText rest.
Proof. reflexivity. Qed.

Lemma phrasingToRichText_single node :
  phrasingToRichText [node] = phrasingNodeToRichText node.
Proof. unfold phrasingToRichText. simpl. apply app_nil_r. Qed.

Lemma phrasingToRichText_wrap w children :
  phrasingToRichText [wrap w children]
  = map (wrapper_effect w) (phrasingToRichText children).
Proof. rewrite phrasingToRichText_single. now destruct w. Qed.

Lemma append_empty_r (s : string) : (s ++ EmptyString)%string = s.
Proof. induction s as [|c s IH]; simpl; [reflexivity | now rewrite IH]. Qed.

Lemma append_associative (a b c : string) :
  ((a ++ b) ++ c)%string = (a ++ (b ++ c))%string.
Proof. induction a as [|x a IH]; simpl; [reflexivity | now rewrite IH]. Qed.

Lemma span_contents_app a b :
  span_contents (a ++ b) = (span_contents a ++ span_contents b)%string.
Proof.
  unfold span_contents. induction a as [|r a IH]; simpl.
  - reflexivity.
  - rewrite IH. now rewrite append_associative.
Qed.

Lemma span_contents_map (f : NotionRichText -> NotionRichText) spans :
  (forall r, content (text (f r)) = content (text r)) ->
  span_contents (map f spans) = span_contents spans.
Proof.
  intros Hf. unfold span_contents. rewrite map_map.
  f_equal. apply map_ext. exact Hf.
Qed.

Lemma span_contents_children children :
  Forall (fun node =>
            span_contents (phrasingNodeToRichText node)
            = phrasingNodeText node) children ->
  span_contents (flat_map phrasingNodeToRichText children)
  = fold_right append EmptyString (map phrasingNodeText children).
Proof.
  induction 1 as [|node rest Hnode _ IH]; simpl.
  - reflexivity.
  - now rewrite span_contents_app, Hnode, IH.
Qed.

Lemma span_contents_node node :
  span_contents (phrasingNodeToRichText node) = phrasingNodeText node.
Proof.
  induction node using PhrasingContent_tree_ind; simpl;
    try (rewrite span_contents_map by reflexivity;
         now apply span_contents_children).
  - unfold span_contents. simpl. apply append_empty_r.
  - unfold span_contents. simpl. apply append_empty_r.
  - reflexivity.
  - destruct node; try discriminate; reflexivity.
Qed.

(** C10: for every phrasing node list, the concatenation of the content
    strings of the spans returned by [phrasingToRichText] is the string
    returned by [getPhrasingText] on the same list. *)
Theorem span_contents_is_plain_text (nodes : list PhrasingContent) :
  span_contents (phrasingToRichText nodes) = getPhrasingText nodes.
Proof.
  apply span_contents_children, Forall_forall.
  intros node _. apply span_contents_node.
Qed.

Lemma flags_kept_refl a : flags_kept a a.
Proof. unfold flags_kept. tauto. Qed.

Lemma span_kept_refl r : span_kept r r.
Proof. split; [reflexivity | apply flags_kept_refl]. Qed.

Lemma span_kept_trans r1 r2 r3 :
  span_kept r1 r2 -> span_kept r2 r3 -> span_kept r1 r3.
Proof.
  unfold span_kept, flags_kept.
  intros [Hc12 H12] [Hc23 H23]. split; [congruence|].
  repeat split; try tauto.
  destruct H12 as (_ & _ & _ & _ & _ & C12).
  destruct H23 as (_ & _ & _ & _ & _ & C23). congruence.
Qed.

Lemma wrapper_effect_kept w r : span_kept r (wrapper_effect w r).
Proof.
  destruct w; unfold span_kept, flags_kept; simpl; tauto.
Qed.

Lemma wrapper_effect_idempotent w r :
  wrapper_effect w (wrapper_effect w r) = wrapper_effect w r.
Proof. now destruct w. Qed.

Lemma Forall2_kept_map w inner outer :
  Forall2 span_kept inner outer ->
  Forall2 span_kept inner (map (wrapper_effect w) outer).
Proof.
  induction 1 as [|r r' inner outer Hr _ IH]; simpl; constructor.
  - eapply span_kept_trans; [exact Hr | apply wrapper_effect_kept].
  - exact IH.
Qed.

Lemma Forall2_diagonal (A : Type) (R : A -> A -> Prop) (l : list A) :
  (forall x, R x x) -> Forall2 R l l.
Proof. intros HR. induction l; constructor; auto. Qed.

Lemma Forall2_along_map (A : Type) (R : A -> A -> Prop) (f : A -> A)
  (l : list A) :
  (forall x, R x (f x)) -> Forall2 R l (map f l).
Proof. intros HR. induction l; simpl; constructor; auto. Qed.

(** C4: annotation flags accumulate through nested formatting wrappers.
    Under any chain of enclosing wrappers each span keeps its content and
    every flag that was true (none is reset to false); applying the same
    wrapper twice gives what applying it once gives (a bold wrapper around
    bold spans is idempotent); a link wrapper sets the link of every span
    of its children to its URL and leaves content and annotations as they
    were; bold text inside a link yields one span with [bold] true and the
    link's URL. *)
Theorem annotations_accumulate :
  (forall chain nodes,
      Forall2 span_kept (phrasingToRichText nodes)
        (phrasingToRichText (wrap_chain chain nodes)))
  /\ (forall w nodes,
         phrasingToRichText [wrap w [wrap w nodes]]
         = phrasingToRichText [wrap w nodes])
  /\ (forall url nodes,
         Forall2 (span_linked url) (phrasingToRichText nodes)
           (phrasingToRichText [Link url nodes]))
  /\ (forall url value,
         phrasingToRichText [Link url [Strong [Text value]]]
         = [{| text := {| content := value; link := Some url |};
               annotations := {| bold := true; italic := false;
                                 strikethrough := false;
                                 underline := false; code := false;
                                 color := "default" |} |}]).
Proof.
  repeat split.
  - intros chain nodes. induction chain as [|w inner IH]; cbn [wrap_chain].
    + apply Forall2_diagonal, span_kept_refl.
    + rewrite phrasingToRichText_wrap. now apply Forall2_kept_map.
  - intros w nodes. rewrite !phrasingToRichText_wrap, map_map.
    apply map_ext. intros r. apply wrapper_effect_idempotent.
  - intros url nodes. change (Link url nodes) with (wrap (WLink url) nodes).
    rewrite phrasingToRichText_wrap.
    apply Forall2_along_map. intros r. now repeat split.
Qed.

(* ===================================================================== *)
(** ** The block mapper                                                    *)
(* ===================================================================== *)

Lemma quote_contribution_eq (child : BlockContent) :
  match child with
  | Paragraph grandchildren =>
      phrasingToRichText grandchildren ++ [newline_span]
  | _ =>
      match processBlock child with
      | paragraph rich_text :: _ => rich_text
      | _ => []
      end
  end = quote_contribution child.
Proof.
  destruct child as [cs|depth cs|cs|value lang|ordered items| |rows|v|i u|i cs];
    try reflexivity.
  - simpl. destruct (depth =? 1)%nat; [reflexivity|].
    destruct (depth =? 2)%nat; reflexivity.
  - simpl. destruct items as [|item items]; [reflexivity|].
    simpl. destruct (truthy_flag ordered); reflexivity.
Qed.

Lemma processBlock_Blockquote (children : list BlockContent) :
  processBlock (Blockquote children)
  = [quote (match flat_map quote_contribution children with
            | [] => [space_span]
            | parts => removelast parts
            end)].
Proof.
  cbn [processBlock].
  rewrite (flat_map_ext _ _ quote_contribution_eq).
  rewrite slice_drop_last.
  destruct (flat_map quote_contribution children); reflexivity.
Qed.

Lemma pad_empty_nonempty spans : pad_empty spans <> [].
Proof. destruct spans; discriminate. Qed.

(** Outside blockquotes Invariant 1 holds: every block mapped from a node
    that is not a blockquote carries at least one span or is a divider. *)
Lemma spans_nonempty_outside_quotes (node : BlockContent) :
  match node with Blockquote _ => True | _ =>
    Forall (fun b => spans_nonempty b = true) (processBlock node) end.
Proof.
  destruct node as [cs|depth cs|cs|value lang|ordered items| |rows|v|i u|i cs];
    trivial; simpl; repeat constructor.
  - unfold spans_nonempty. simpl.
    destruct (phrasingToRichText cs); reflexivity.
  - destruct (depth =? 1)%nat; [|destruct (depth =? 2)%nat];
      repeat constructor; unfold spans_nonempty; simpl;
      destruct (phrasingToRichText cs); reflexivity.
  - apply Forall_map, Forall_forall. intros item _.
    destruct (truthy_flag ordered); unfold spans_nonempty; simpl;
      destruct (listItemToRichText item); reflexivity.
Qed.

(** C1 (the code departs from the claim): a blockquote whose only child is
    a paragraph holding only an image is converted to a quote block with
    an empty span list, not padded with a space span. *)
Theorem image_only_blockquote_has_no_span :
  rootToNotionBlocks image_only_quote = [quote []]
  /\ existsb (fun b => negb (spans_nonempty b))
       (rootToNotionBlocks image_only_quote) = true.
Proof. split; reflexivity. Qed.

(** C2, the claim as stated, fails: the heading inside a blockquote maps
    to a heading block whose spans are not spliced into the quote; the
    quote gets the padding span instead. *)
Lemma quoted_heading_is_not_spliced :
  processBlock quoted_heading = [quote [space_span]]
  /\ spec_quote_spans [Heading 1 [Text "H"]] = [plain_span "H"]
  /\ processBlock quoted_heading
     <> [quote (spec_quote_spans [Heading 1 [Text "H"]])].
Proof. repeat split. discriminate. Qed.

(** C2 (amended): a blockquote maps to exactly one quote block.  A
    paragraph child contributes its spans followed by a newline span; a
    table, html, definition or footnote-definition child contributes the
    single span of the paragraph block it maps to; a heading, nested
    blockquote, code, list or thematic-break child contributes nothing
    ([quote_contribution]).  When the last contributing child is a
    paragraph and the quote has a span at all, the quote holds the
    contributions in order without the final newline span. *)
Theorem blockquote_flattening
  (before : list BlockContent) (last : list PhrasingContent)
  (after : list BlockContent) :
  Forall (fun child => quote_contribution child = []) after ->
  flat_map quote_contribution before ++ phrasingToRichText last <> [] ->
  processBlock (Blockquote (before ++ Paragraph last :: after))
  = [quote (flat_map quote_contribution before ++ phrasingToRichText last)]
  /\ (forall children, exists rich_text,
         processBlock (Blockquote children) = [quote rich_text]).
Proof.
  intros Hafter _. split.
  - rewrite processBlock_Blockquote, flat_map_app. cbn [flat_map].
    assert (Hnil : flat_map quote_contribution after = []).
    { induction Hafter as [|c rest Hc _ IH]; simpl; [reflexivity|].
      now rewrite Hc, IH. }
    rewrite Hnil, app_nil_r. cbn [quote_contribution].
    rewrite app_assoc.
    remember (flat_map quote_contribution before ++ phrasingToRichText last)
      as body.
    destruct (body ++ [newline_span]) eqn:E.
    + destruct body; discriminate.
    + now rewrite <- E, removelast_last.
  - intros children. rewrite processBlock_Blockquote. eauto.
Qed.

Lemma blockquote_flattening_witness :
  processBlock (Blockquote [Paragraph [Text "A"]; Paragraph [Text "B"]])
  = [quote [plain_span "A"; newline_span; plain_span "B"]].
Proof.
  apply (proj1 (@blockquote_flattening
                  [Paragraph [Text "A"]] [Text "B"] []
                  (Forall_nil _)
                  (fun H => @nil_cons _ (plain_span "A")
                              [newline_span; plain_span "B"] (eq_sym H)))).
Defined.

Lemma rootToNotionBlocks_app (before after : Root) :
  rootToNotionBlocks (before ++ after)
  = rootToNotionBlocks before ++ rootToNotionBlocks after.
Proof. apply flat_map_app. Qed.

(** C3, the claim as stated, fails: an html node between two paragraphs at
    document root leaves no block behind; the output holds the two
    paragraph blocks only. *)
Lemma html_at_root_is_dropped :
  rootToNotionBlocks html_between_paragraphs
  = [paragraph [plain_span "A"]; paragraph [plain_span "B"]]
  /\ rootToNotionBlocks html_between_paragraphs
     <> [paragraph [plain_span "A"]; paragraph [space_span];
         paragraph [plain_span "B"]].
Proof. split; [reflexivity | discriminate]. Qed.

(** C3 (amended): the block mapper maps every unsupported block-level
    node (html, definition, footnoteDefinition) to exactly one paragraph
    block holding a single space span; the document walker skips such a
    node when it is a child of the root, so there it adds no block to the
    output and the blocks of its neighbours become adjacent. *)
Theorem unsupported_block_placeholder (node : BlockContent) :
  unsupported_block node = true ->
  processBlock node = [paragraph [space_span]]
  /\ (forall before after,
        rootToNotionBlocks (before ++ RootBlock node :: after)
        = rootToNotionBlocks before ++ rootToNotionBlocks after).
Proof.
  intros Hnode. split.
  - destruct node; try discriminate; reflexivity.
  - intros before after. rewrite rootToNotionBlocks_app. f_equal.
    destruct node; try discriminate; reflexivity.
Qed.

Lemma unsupported_block_placeholder_witness :
  processBlock (Html "<hr>") = [paragraph [space_span]]
  /\ (forall before after,
        rootToNotionBlocks (before ++ RootBlock (Html "<hr>") :: after)
        = rootToNotionBlocks before ++ rootToNotionBlocks after).
Proof. apply (@unsupported_block_placeholder (Html "<hr>")). reflexivity. Defined.

Lemma pad_empty_item (item : ListItem) :
  pad_empty (listItemToRichText item) = item_spans item.
Proof.
  destruct item as [[|first rest]]; [reflexivity|].
  destruct first; try reflexivity.
  simpl. destruct (phrasingToRichText children); reflexivity.
Qed.

(** C5: a list maps to one block per item, in order; the blocks are
    [numbered_list_item] when [ordered] is true and [bulleted_list_item]
    otherwise; an item's spans come from its first child only, and only
    when that child is a paragraph (whatever follows the first child
    changes nothing, and a first child of another kind gives the single
    space span), an empty result being padded with a single space
    span. *)
Theorem list_items_one_block_each
  (ordered : option bool) (items : list ListItem) :
  processBlock (List ordered items)
  = map (fun item =>
           match ordered with
           | Some true => numbered_list_item (item_spans item)
           | _ => bulleted_list_item (item_spans item)
           end) items
  /\ List.length (processBlock (List ordered items)) = List.length items
  /\ (forall first rest,
        processBlock (List ordered [MkListItem (first :: rest)])
        = processBlock (List ordered [MkListItem [first]]))
  /\ (forall grandchildren rest,
        item_spans (MkListItem (Paragraph grandchildren :: rest))
        = pad_empty (phrasingToRichText grandchildren))
  /\ (forall first rest,
        match first with
        | Paragraph _ => True
        | _ => item_spans (MkListItem (first :: rest)) = [space_span]
        end)
  /\ item_spans (MkListItem []) = [space_span].
Proof.
  assert (Hmap : processBlock (List ordered items)
                 = map (fun item =>
                          match ordered with
                          | Some true => numbered_list_item (item_spans item)
                          | _ => bulleted_list_item (item_spans item)
                          end) items).
  { cbn [processBlock]. apply map_ext. intros item.
    cbv zeta. rewrite pad_empty_item.
    destruct ordered as [[|]|]; reflexivity. }
  split; [exact Hmap|]. split; [rewrite Hmap; apply length_map|].
  split; [|split; [|split]].
  - intros first rest. destruct first; reflexivity.
  - intros grandchildren rest. simpl.
    destruct (phrasingToRichText grandchildren); reflexivity.
  - intros first rest. destruct first; trivial.
  - reflexivity.
Qed.

(** C6: a table maps to exactly one paragraph block with a single span of
    default annotations and no link; its content is the plain text of the
    cells, joined by [" | "] within a row, the rows joined by a newline,
    and a single space when that string is empty; a table with the rows
    a, b and c, d has the content ["a | b\nc | d"]. *)
Theorem table_flattening (rows : list TableRow) :
  processBlock (Table rows)
  = [paragraph
       [{| text := {| content :=
                        match join LF
                                (map (fun row =>
                                        join " | " (map getPhrasingText row))
                                   rows) with
                        | EmptyString => " "
                        | joined => joined
                        end;
                      link := None |};
           annotations := default_annotations |}]]
  /\ (forall a b c d : string,
        processBlock (Table [[[Text a]; [Text b]]; [[Text c]; [Text d]]])
        = [paragraph
             [plain_span (a ++ " | " ++ b ++ LF ++ c ++ " | " ++ d)%string]])
  /\ processBlock (Table []) = [paragraph [plain_span " "]].
Proof.
  split; [|split].
  - cbn [processBlock]. cbv zeta. unfold plain_span.
    destruct (join LF _); reflexivity.
  - intros a b c d. cbn [processBlock map join getPhrasingText
                           phrasingNodeText fold_right].
    cbv zeta. rewrite !append_empty_r.
    replace ((a ++ " | " ++ b) ++ LF ++ c ++ " | " ++ d)%string
      with (a ++ " | " ++ b ++ LF ++ c ++ " | " ++ d)%string
      by (now rewrite !append_associative).
    destruct a; reflexivity.
  - reflexivity.
Qed.

(** C7: a heading maps to exactly one block, [heading_1] for depth 1,
    [heading_2] for depth 2 and [heading_3] for every depth of 3 or more
    (so for 4, 5 and 6), carrying the padded spans of its children. *)
Theorem heading_clamp (depth : nat) (children : list PhrasingContent) :
  let spans := pad_empty (phrasingToRichText children) in
  (depth = 1 -> processBlock (Heading depth children) = [heading_1 spans])
  /\ (depth = 2 -> processBlock (Heading depth children) = [heading_2 spans])
  /\ (3 <= depth ->
      processBlock (Heading depth children) = [heading_3 spans]).
Proof.
  cbv zeta. repeat split.
  - intros ->. reflexivity.
  - intros ->. reflexivity.
  - intros Hdepth. cbn [processBlock]. cbv zeta.
    destruct (Nat.eqb_spec depth 1); [lia|].
    destruct (Nat.eqb_spec depth 2); [lia|]. reflexivity.
Qed.

Lemma heading_clamp_witness :
  processBlock (Heading 4 [Text "t"]) = [heading_3 [plain_span "t"]]
  /\ processBlock (Heading 5 [Text "t"]) = [heading_3 [plain_span "t"]]
  /\ processBlock (Heading 6 [Text "t"]) = [heading_3 [plain_span "t"]].
Proof.
  split; [|split].
  - apply (proj2 (proj2 (heading_clamp 4 [Text "t"]))). repeat constructor.
  - apply (proj2 (proj2 (heading_clamp 5 [Text "t"]))). repeat constructor.
  - apply (proj2 (proj2 (heading_clamp 6 [Text "t"]))). repeat constructor.
Defined.

Lemma block_count_correct (node : BlockContent) :
  List.length (processBlock node) = block_count node.
Proof.
  destruct node as [cs|depth cs|cs|value lang|ordered items| |rows|v|i u|i cs];
    try reflexivity.
  - simpl. destruct (depth =? 1)%nat; [reflexivity|].
    destruct (depth =? 2)%nat; reflexivity.
  - simpl. apply length_map.
Qed.

Lemma root_block_count_correct (node : RootContent) :
  List.length (rootNodeToBlocks node) = root_block_count node.
Proof.
  destruct node as [n|n|t]; try reflexivity.
  destruct n; cbn [rootNodeToBlocks root_block_count unsupported_block];
    try reflexivity; apply block_count_correct.
Qed.

Section BlockInduction.

Variable P : BlockContent -> Prop.

Hypothesis case_Blockquote :
  forall children, Forall P children -> P (Blockquote children).
Hypothesis case_other :
  forall node,
    match node with Blockquote _ => False | _ => True end -> P node.

Lemma BlockContent_quote_ind : forall node, P node.
Proof.
  fix IH 1.
  assert (all : forall nodes, Forall P nodes).
  { induction nodes as [|n rest IHrest]; constructor; [apply IH | exact IHrest]. }
  intros node. destruct node; try (apply case_other; exact I).
  apply case_Blockquote, all.
Qed.

End BlockInduction.

Lemma quoteParts_limited_agrees (max_arguments : nat)
  (mapBlock : BlockContent -> Completion (list NotionBlock))
  (remaining : list BlockContent) :
  Forall (fun child =>
            forall out, mapBlock child = Completed out ->
                        out = processBlock child) remaining ->
  forall parts parts',
    quoteParts_limited max_arguments mapBlock remaining parts
    = Completed parts' ->
    parts' = parts ++ flat_map quote_contribution remaining.
Proof.
  induction 1 as [|child rest Hchild _ IH]; intros parts parts'.
  - intros [= <-]. now rewrite app_nil_r.
  - cbn [flat_map]. rewrite <- (quote_contribution_eq child).
    assert (Hother :
      match mapBlock child with
      | Completed (paragraph rich_text :: _) =>
          match push_spread max_arguments parts rich_text with
          | Completed parts0 =>
              quoteParts_limited max_arguments mapBlock rest parts0
          | RangeError => RangeError
          end
      | Completed _ => quoteParts_limited max_arguments mapBlock rest parts
      | RangeError => RangeError
      end = Completed parts' ->
      parts'
      = parts
        ++ match processBlock child with
           | paragraph rich_text :: _ => rich_text
           | _ => []
           end ++ flat_map quote_contribution rest).
    { destruct (mapBlock child) as [produced|] eqn:E; [|discriminate].
      rewrite <- (Hchild produced eq_refl).
      destruct produced as [|[] inner];
        try (intros Hrun; now apply IH in Hrun).
      unfold push_spread. destruct (_ <=? _)%nat; [|discriminate].
      intros Hrun. apply IH in Hrun. now rewrite Hrun, app_assoc. }
    destruct child; try exact Hother.
    cbn [quoteParts_limited]. unfold push_spread.
    destruct (_ <=? _)%nat; [|discriminate].
    intros Hrun. apply IH in Hrun. rewrite Hrun.
    now rewrite <- !app_assoc.
Qed.

(** Where the limited converter completes, it returns what the converter
    without the limit returns. *)
Lemma processBlock_limited_agrees (max_arguments : nat) (node : BlockContent) :
  forall out,
    processBlock_limited max_arguments node = Completed out ->
    out = processBlock node.
Proof.
  induction node as [children IH|node Hnode] using BlockContent_quote_ind.
  2:{ intros out. destruct node; try contradiction;
        now intros [= <-]. }
  intros out. cbn [processBlock_limited].
  destruct (quoteParts_limited max_arguments
              (processBlock_limited max_arguments) children [])
    as [parts|] eqn:Hrun; [|discriminate].
  eapply quoteParts_limited_agrees in Hrun; [|exact IH]. cbn [app] in Hrun.
  subst parts. intros [= <-].
  rewrite processBlock_Blockquote, slice_drop_last.
  destruct (flat_map quote_contribution children); reflexivity.
Qed.

Lemma walk_limited_agrees (max_arguments : nat) (root : Root) :
  forall blocks out,
    walk_limited max_arguments root blocks = Completed out ->
    out = blocks ++ rootToNotionBlocks root.
Proof.
  unfold rootToNotionBlocks.
  induction root as [|node rest IH]; intros blocks out.
  - intros [= <-]. now rewrite app_nil_r.
  - cbn [walk_limited flat_map].
    destruct node as [n|n|t]; try (intros Hrun; now apply IH in Hrun).
    destruct n;
      try (intros Hrun; now apply IH in Hrun);
      (destruct (processBlock_limited max_arguments _) as [produced|] eqn:E;
       [|discriminate];
       apply processBlock_limited_agrees in E; subst produced;
       unfold push_spread; destruct (_ <=? _)%nat; [|discriminate];
       intros Hrun; apply IH in Hrun; subst out;
       cbn [rootNodeToBlocks]; now rewrite app_assoc).
Qed.

(** C8 (the code departs from the claim): the document walker hands the
    blocks of each root child to [push] as spread arguments, so a list
    with more items than the engine accepts arguments in one call makes
    the conversion throw a [RangeError] instead of completing, although
    the document is within the grammar. *)
Theorem long_list_overflows_the_spread
  (max_arguments : nat) (fromMarkdown : string -> Root) (markdown : string)
  (ordered : option bool) (items : list ListItem) (after : Root) :
  max_arguments < List.length items ->
  fromMarkdown markdown = RootBlock (List ordered items) :: after ->
  markdownToNotionBlocks_limited max_arguments fromMarkdown markdown
  = RangeError.
Proof.
  intros Hlong Hparsed. unfold markdownToNotionBlocks_limited.
  rewrite Hparsed. cbn [walk_limited processBlock_limited].
  unfold push_spread.
  replace (List.length (processBlock (List ordered items)))
    with (List.length items) by (cbn [processBlock]; now rewrite length_map).
  destruct (Nat.leb_spec (List.length items) max_arguments); [lia|].
  reflexivity.
Qed.

Lemma long_list_overflows_the_spread_witness :
  markdownToNotionBlocks_limited 2
    (fun _ => [RootBlock (List None [sample_item; sample_item; sample_item])])
    "- x"
  = RangeError.
Proof.
  apply (@long_list_overflows_the_spread 2
           (fun _ =>
              [RootBlock (List None [sample_item; sample_item; sample_item])])
           "- x" None [sample_item; sample_item; sample_item] []).
  - repeat constructor.
  - reflexivity.
Defined.

(* ===================================================================== *)
(** ** The batch emitter                                                   *)
(* ===================================================================== *)

Lemma batch_sizes_step (total : nat) :
  0 < total ->
  batch_sizes total
  = Nat.min BLOCKS_PER_REQUEST total
      :: batch_sizes (total - BLOCKS_PER_REQUEST).
Proof.
  unfold batch_sizes, BLOCKS_PER_REQUEST. intros Hpos.
  destruct (le_lt_dec 100 total) as [Hfull|Hshort].
  - assert (Hdiv : total / 100 = S ((total - 100) / 100)).
    { replace total with ((total - 100) + 1 * 100) at 1 by lia.
      rewrite Nat.div_add by lia. lia. }
    assert (Hmod : total mod 100 = (total - 100) mod 100).
    { replace total with ((total - 100) + 1 * 100) at 1 by lia.
      apply Nat.Div0.mod_add. }
    rewrite Hdiv, Hmod. cbn [repeat app]. rewrite Nat.min_l by lia.
    reflexivity.
  - rewrite (Nat.div_small total) by lia.
    rewrite (Nat.mod_small total) by lia.
    replace (total - 100) with 0 by lia.
    rewrite Nat.min_r by lia.
    destruct (Nat.eqb_spec total 0); [lia|]. reflexivity.
Qed.

Section BatchEmitterFacts.

Variable server : list FetchRequest -> FetchRequest -> FetchResponse.
Variables apiKey blockId : string.
Variable blocks : list NotionBlock.

Lemma appendLoop_iteration (i : nat) (issued : list FetchRequest) :
  appendLoop server apiKey blockId blocks i issued
  = if lt_dec i (List.length blocks)
    then
      let batch := firstn BLOCKS_PER_REQUEST (skipn i blocks) in
      let request := appendRequest apiKey blockId batch in
      if response_ok (server issued request)
      then appendLoop server apiKey blockId blocks
             (i + BLOCKS_PER_REQUEST) (issued ++ [request])
      else (issued ++ [request],
            Rejected ("Notion append blocks failed: "
                      ++ number_to_string
                           (response_status (server issued request))
                      ++ " " ++ response_text (server issued request))%string)
    else (issued, Resolved tt).
Proof.
  simp appendLoop. destruct (lt_dec i (List.length blocks)); simpl.
  - now rewrite slice_window.
  - reflexivity.
Qed.

Hypothesis server_accepts :
  forall history request, response_ok (server history request) = true.

Lemma appendLoop_accepted (fuel : nat) :
  forall i issued,
    List.length blocks - i <= fuel ->
    exists batches,
      appendLoop server apiKey blockId blocks i issued
      = (issued ++ map (appendRequest apiKey blockId) batches, Resolved tt)
      /\ List.concat batches = skipn i blocks
      /\ Forall (fun batch =>
                   1 <= List.length batch <= BLOCKS_PER_REQUEST) batches
      /\ map (@List.length _) batches
         = batch_sizes (List.length blocks - i).
Proof.
  induction fuel as [|fuel IH]; intros i issued Hfuel;
    rewrite appendLoop_iteration;
    destruct (lt_dec i (List.length blocks)) as [Hlt|Hge]; try lia.
  1, 3:
    exists []; simpl; rewrite app_nil_r;
    replace (List.length blocks - i) with 0 by lia;
    rewrite skipn_all2 by lia; repeat split; constructor.
  cbv zeta. rewrite server_accepts.
  set (batch := firstn BLOCKS_PER_REQUEST (skipn i blocks)).
  destruct (IH (i + BLOCKS_PER_REQUEST)
              (issued ++ [appendRequest apiKey blockId batch]))
    as (rest & Hrun & Hconcat & Hsizes & Hlengths).
  { unfold BLOCKS_PER_REQUEST. lia. }
  assert (Hbatch : List.length batch
                   = Nat.min BLOCKS_PER_REQUEST (List.length blocks - i)).
  { unfold batch. now rewrite length_firstn, length_skipn. }
  exists (batch :: rest). repeat split.
  - rewrite Hrun, <- app_assoc. reflexivity.
  - simpl. rewrite Hconcat. unfold batch.
    rewrite Nat.add_comm, <- skipn_skipn. apply firstn_skipn.
  - constructor; [|exact Hsizes].
    rewrite Hbatch. unfold BLOCKS_PER_REQUEST. lia.
  - simpl. rewrite Hlengths, Hbatch.
    rewrite (@batch_sizes_step (List.length blocks - i)) by lia.
    do 2 f_equal. lia.
Qed.

End BatchEmitterFacts.

(** Whatever the service answers, the requests issued carry consecutive
    groups of the sequence, in order, none longer than the limit: they
    cover a prefix of [blocks], which ends at the first refused group. *)
Lemma issued_batches_are_a_prefix
  (server : list FetchRequest -> FetchRequest -> FetchResponse)
  (apiKey blockId : string) (blocks : list NotionBlock) (fuel : nat) :
  forall i issued,
    List.length blocks - i <= fuel ->
    exists batches remaining,
      fst (appendLoop server apiKey blockId blocks i issued)
      = issued ++ map (appendRequest apiKey blockId) batches
      /\ List.concat batches ++ remaining = skipn i blocks
      /\ Forall (fun batch =>
                   1 <= List.length batch <= BLOCKS_PER_REQUEST) batches.
Proof.
  induction fuel as [|fuel IH]; intros i issued Hfuel;
    rewrite appendLoop_iteration;
    destruct (lt_dec i (List.length blocks)) as [Hlt|Hge]; try lia.
  1, 3:
    exists [], (skipn i blocks); simpl; rewrite app_nil_r;
    repeat split; constructor.
  cbv zeta.
  set (batch := firstn BLOCKS_PER_REQUEST (skipn i blocks)).
  assert (Hbatch : 1 <= List.length batch <= BLOCKS_PER_REQUEST).
  { unfold batch. rewrite length_firstn, length_skipn.
    unfold BLOCKS_PER_REQUEST. lia. }
  assert (Hsplit : batch ++ skipn (i + BLOCKS_PER_REQUEST) blocks
                   = skipn i blocks).
  { unfold batch. rewrite Nat.add_comm, <- skipn_skipn. apply firstn_skipn. }
  destruct (response_ok (server issued (appendRequest apiKey blockId batch))).
  - destruct (IH (i + BLOCKS_PER_REQUEST)
                (issued ++ [appendRequest apiKey blockId batch]))
      as (rest & remaining & Hrun & Hconcat & Hsizes).
    { unfold BLOCKS_PER_REQUEST. lia. }
    exists (batch :: rest), remaining. split; [|split].
    + rewrite Hrun, <- app_assoc. reflexivity.
    + simpl. rewrite <- app_assoc, Hconcat. exact Hsplit.
    + now constructor.
  - exists [batch], (skipn (i + BLOCKS_PER_REQUEST) blocks). split; [|split].
    + reflexivity.
    + simpl. rewrite app_nil_r. exact Hsplit.
    + constructor; [exact Hbatch | constructor].
Qed.

(** C9, the claim as stated, fails: with 250 blocks and a service that
    refuses the second request, the emitter issues two groups of 100 and
    stops; no third group goes out and the groups issued do not make up
    the sequence. *)
Lemma refused_request_ends_the_batches :
  map (fun request => List.length (request_children request))
    (fst (appendBlocksInBatches refuses_second "secret" "page"
            (repeat divider 250) []))
  = [100; 100]
  /\ snd (appendBlocksInBatches refuses_second "secret" "page"
            (repeat divider 250) [])
     = Rejected "Notion append blocks failed: 429 rate limited"
  /\ List.concat
       (map request_children
          (fst (appendBlocksInBatches refuses_second "secret" "page"
                  (repeat divider 250) [])))
     <> repeat divider 250.
Proof.
  split; [vm_compute; reflexivity|]. split; [vm_compute; reflexivity|].
  intros Hall. apply (f_equal (@List.length NotionBlock)) in Hall.
  vm_compute in Hall. discriminate.
Qed.

(** C9 (amended): when the service accepts every request, the batch
    emitter issues the block sequence as consecutive groups, one [PATCH]
    request to the children of the block per group, in order, and
    resolves: the [children] arrays of the requests, concatenated, are
    the original sequence; each holds between 1 and 100 blocks; all but
    possibly the last hold exactly 100, the last the remainder; and 250
    blocks go out as three groups of 100, 100 and 50. *)
Theorem batches_partition_blocks
  (server : list FetchRequest -> FetchRequest -> FetchResponse)
  (apiKey blockId : string) (blocks : list NotionBlock)
  (issued : list FetchRequest) :
  (forall history request, response_ok (server history request) = true) ->
  exists new,
    appendBlocksInBatches server apiKey blockId blocks issued
    = (issued ++ new, Resolved tt)
    /\ List.concat (map request_children new) = blocks
    /\ Forall (fun request =>
                 1 <= List.length (request_children request) <= 100) new
    /\ map (fun request => List.length (request_children request)) new
       = repeat 100 (List.length blocks / 100)
         ++ (if (List.length blocks mod 100 =? 0)%nat then []
             else [List.length blocks mod 100])
    /\ (List.length blocks = 250 ->
        map (fun request => List.length (request_children request)) new
        = [100; 100; 50])
    /\ Forall (fun request =>
                 request_method request = "PATCH"
                 /\ request_path request
                    = ("/blocks/" ++ blockId ++ "/children")%string
                 /\ request_bearer request = apiKey) new.
Proof.
  intros Haccepts.
  destruct (@appendLoop_accepted server apiKey blockId blocks Haccepts
              (List.length blocks) 0 issued)
    as (batches & Hrun & Hconcat & Hsizes & Hlengths); [lia|].
  rewrite Nat.sub_0_r in Hlengths.
  assert (Hchildren :
            map request_children (map (appendRequest apiKey blockId) batches)
            = batches).
  { rewrite map_map. cbn [request_children appendRequest]. apply map_id. }
  assert (Hcount :
            map (fun request => List.length (request_children request))
              (map (appendRequest apiKey blockId) batches)
            = map (@List.length NotionBlock) batches).
  { rewrite map_map. reflexivity. }
  exists (map (appendRequest apiKey blockId) batches).
  split; [exact Hrun|]. split; [now rewrite Hchildren|].
  split; [apply Forall_map; exact Hsizes|].
  split; [rewrite Hcount; exact Hlengths|].
  split.
  - intros H250. rewrite Hcount, Hlengths, H250. reflexivity.
  - apply Forall_map, Forall_forall. intros batch _. now repeat split.
Qed.

Lemma batches_partition_blocks_witness :
  exists new,
    appendBlocksInBatches always_ok "secret" "page" (repeat divider 250) []
    = ([] ++ new, Resolved tt)
    /\ List.concat (map request_children new) = repeat divider 250
    /\ Forall (fun request =>
                 1 <= List.length (request_children request) <= 100) new
    /\ map (fun request => List.length (request_children request)) new
       = repeat 100 (List.length (repeat divider 250) / 100)
         ++ (if (List.length (repeat divider 250) mod 100 =? 0)%nat then []
             else [List.length (repeat divider 250) mod 100])
    /\ (List.length (repeat divider 250) = 250 ->
        map (fun request => List.length (request_children request)) new
        = [100; 100; 50])
    /\ Forall (fun request =>
                 request_method request = "PATCH"
                 /\ request_path request
                    = ("/blocks/" ++ "page" ++ "/children")%string
                 /\ request_bearer request = "secret") new.
Proof.
  apply (@batches_partition_blocks always_ok "secret" "page"
           (repeat divider 250) []).
  intros history request. reflexivity.
Defined.

(* ===================================================================== *)
(** ** Further properties of the converter                                *)
(* ===================================================================== *)

Lemma span_leaves_children children :
  Forall (fun node =>
            List.length (phrasingNodeToRichText node) = span_leaves node)
    children ->
  List.length (flat_map phrasingNodeToRichText children)
  = list_sum (map span_leaves children).
Proof.
  induction 1 as [|node rest Hnode _ IH]; simpl.
  - reflexivity.
  - now rewrite length_app, Hnode, IH.
Qed.

Lemma span_leaves_node node :
  List.length (phrasingNodeToRichText node) = span_leaves node.
Proof.
  induction node using PhrasingContent_tree_ind; simpl;
    try (rewrite length_map; now apply span_leaves_children);
    try reflexivity.
  destruct node; try discriminate; reflexivity.
Qed.

(** X1: the span converter yields exactly one span per text, inline-code
    and break node reachable through strong, emphasis, delete and link
    wrappers: a wrapper neither adds nor removes spans and the skipped
    kinds (with everything below a link reference) yield none; so a
    paragraph is padded with the space span exactly when it holds no such
    node, and otherwise carries the converted spans as they are. *)
Theorem span_count_is_leaf_count (nodes : list PhrasingContent) :
  List.length (phrasingToRichText nodes) = list_sum (map span_leaves nodes)
  /\ processBlock (Paragraph nodes)
     = [paragraph (if (list_sum (map span_leaves nodes) =? 0)%nat
                   then [space_span]
                   else phrasingToRichText nodes)].
Proof.
  assert (Hlen : List.length (phrasingToRichText nodes)
                 = list_sum (map span_leaves nodes)).
  { apply span_leaves_children, Forall_forall.
    intros node _. apply span_leaves_node. }
  split; [exact Hlen|].
  cbn [processBlock]. rewrite <- Hlen.
  destruct (phrasingToRichText nodes) as [|r rest]; reflexivity.
Qed.

Lemma never_underlined_children children :
  Forall (fun node => Forall plain_style (phrasingNodeToRichText node))
    children ->
  Forall plain_style (flat_map phrasingNodeToRichText children).
Proof.
  induction 1 as [|node rest Hnode _ IH]; simpl.
  - constructor.
  - apply Forall_app. now split.
Qed.

Lemma never_underlined_node node :
  Forall plain_style (phrasingNodeToRichText node).
Proof.
  induction node using PhrasingContent_tree_ind; simpl;
    try (apply Forall_map;
         eapply Forall_impl; [|apply never_underlined_children; eassumption];
         intros r Hr; exact Hr);
    try (repeat constructor).
  destruct node; try discriminate; constructor.
Qed.

Lemma never_underlined_spans nodes :
  Forall plain_style (phrasingToRichText nodes).
Proof.
  apply never_underlined_children, Forall_forall.
  intros node _. apply never_underlined_node.
Qed.

Lemma plain_style_plain_span s : plain_style (plain_span s).
Proof. split; reflexivity. Qed.

Lemma plain_style_pad spans :
  Forall plain_style spans -> Forall plain_style (pad_empty spans).
Proof.
  destruct spans; simpl; [|trivial].
  intros _. repeat constructor.
Qed.

Lemma Forall_removelast (A : Type) (P : A -> Prop) (l : list A) :
  Forall P l -> Forall P (removelast l).
Proof.
  induction 1 as [|x l Hx Hl IH]; simpl; [constructor|].
  destruct l; [constructor | now constructor].
Qed.

Lemma plain_style_contribution child :
  Forall plain_style (quote_contribution child).
Proof.
  destruct child; simpl; repeat constructor.
  apply Forall_app. split; [apply never_underlined_spans|].
  repeat constructor.
Qed.

Lemma plain_styled_processBlock node :
  Forall plain_styled_block (processBlock node).
Proof.
  destruct node as [cs|depth cs|cs|value lang|ordered items| |rows|v|i u|i cs];
    try (repeat constructor; fail).
  - repeat constructor. apply plain_style_pad, never_underlined_spans.
  - cbn [processBlock]. cbv zeta.
    destruct (depth =? 1)%nat; [|destruct (depth =? 2)%nat];
      repeat constructor; apply plain_style_pad, never_underlined_spans.
  - rewrite processBlock_Blockquote. repeat constructor.
    unfold plain_styled_block. cbn [block_rich_text].
    assert (Hparts : Forall plain_style (flat_map quote_contribution cs)).
    { induction cs as [|c rest IH]; simpl; [constructor|].
      apply Forall_app. split; [apply plain_style_contribution | exact IH]. }
    destruct (flat_map quote_contribution cs) eqn:E.
    + repeat constructor.
    + now apply Forall_removelast.
  - cbn [processBlock]. apply Forall_map, Forall_forall. intros item _.
    cbv zeta.
    assert (Forall plain_style (pad_empty (listItemToRichText item))).
    { apply plain_style_pad. destruct item as [[|first rest]];
        [constructor|]. destruct first; try constructor.
      apply never_underlined_spans. }
    destruct (truthy_flag ordered); assumption.
Qed.

(** X2: the converter never underlines and never colours: every span of
    every block it emits for a document has [underline] false and the
    colour ["default"], whatever the nesting of the formatting around
    it. *)
Theorem converter_never_underlines (root : Root) :
  Forall plain_styled_block (rootToNotionBlocks root).
Proof.
  unfold rootToNotionBlocks.
  induction root as [|node rest IH]; simpl; [constructor|].
  apply Forall_app. split; [|exact IH].
  destruct node as [n|n|t]; try constructor.
  destruct n; cbn [rootNodeToBlocks];
    first [apply plain_styled_processBlock | constructor].
Qed.

Lemma forallb_Forall_true (A : Type) (f : A -> bool) (l : list A) :
  Forall (fun x => f x = true) l -> forallb f l = true.
Proof. intros H. apply forallb_forall. now apply Forall_forall. Qed.

Lemma one_span_quote_node (node : RootContent) :
  forallb spans_nonempty (rootNodeToBlocks node)
  = negb (one_span_quote node).
Proof.
  destruct node as [n|n|t]; try reflexivity.
  destruct n as [cs|depth cs|cs|value lang|ordered items| |rows|v|i u|i cs];
    try reflexivity;
    cbn [rootNodeToBlocks one_span_quote negb];
    try (apply forallb_Forall_true;
         now apply (spans_nonempty_outside_quotes _)).
  - apply forallb_Forall_true.
    apply (spans_nonempty_outside_quotes (Paragraph cs)).
  - apply forallb_Forall_true.
    apply (spans_nonempty_outside_quotes (Heading depth cs)).
  - rewrite processBlock_Blockquote.
    destruct (flat_map quote_contribution cs) as [|a [|b rest]];
      reflexivity.
  - apply forallb_Forall_true.
    apply (spans_nonempty_outside_quotes (List ordered items)).
Qed.

(** X3: every block the converter emits for a document carries at least
    one span (or is a divider) exactly when no blockquote among the
    root's children has children contributing exactly one span in total;
    such a blockquote is the only source of a block with an empty span
    list. *)
Theorem empty_spans_only_from_one_span_quotes (root : Root) :
  forallb spans_nonempty (rootToNotionBlocks root)
  = negb (existsb one_span_quote root).
Proof.
  unfold rootToNotionBlocks.
  induction root as [|node rest IH]; simpl; [reflexivity|].
  rewrite forallb_app, IH, one_span_quote_node, negb_orb. reflexivity.
Qed.

(** X4: a table or an unsupported node that closes a blockquote leaves
    nothing in the quote: its single span is the element that
    [slice(0, -1)] removes, so the quote holds the contributions of the
    children before it only (a newline span included when a paragraph
    comes right before). *)
Theorem closing_child_span_is_lost
  (before : list BlockContent) (last : BlockContent) :
  single_span_paragraph last = true ->
  processBlock (Blockquote (before ++ [last]))
  = [quote (flat_map quote_contribution before)].
Proof.
  intros Hlast. rewrite processBlock_Blockquote, flat_map_app.
  cbn [flat_map]. rewrite app_nil_r.
  assert (Hone : exists s, quote_contribution last = [s]).
  { destruct last; try discriminate; simpl; eauto. }
  destruct Hone as [s ->].
  destruct (flat_map quote_contribution before ++ [s]) eqn:E.
  - destruct (flat_map quote_contribution before); discriminate.
  - now rewrite <- E, removelast_last.
Qed.

Lemma closing_child_span_is_lost_witness :
  processBlock
    (Blockquote ([Paragraph [Text "A"]] ++ [Table [[[Text "x"]]]]))
  = [quote [plain_span "A"; newline_span]].
Proof.
  apply (@closing_child_span_is_lost
           [Paragraph [Text "A"]] (Table [[[Text "x"]]])).
  reflexivity.
Defined.

Lemma join_without_separator (parts : list string) :
  join EmptyString parts = fold_right append EmptyString parts.
Proof.
  induction parts as [|s rest IH]; [reflexivity|].
  destruct rest as [|t rest].
  - simpl. now rewrite append_empty_r.
  - change (join EmptyString (s :: t :: rest))
      with (s ++ EmptyString ++ join EmptyString (t :: rest))%string.
    now rewrite IH.
Qed.

Lemma text_value_is_node_text (nodes : list PhrasingContent) :
  map text_value (filter is_text nodes)
  = map phrasingNodeText (filter is_text nodes).
Proof.
  induction nodes as [|node rest IH]; [reflexivity|].
  destruct node; simpl; try exact IH. now rewrite IH.
Qed.

(** X5: [getBlockText] reads only the text nodes that are direct children
    of a paragraph or heading: its result is what [getPhrasingText] gives
    on those text nodes alone, so text inside a strong, emphasis, delete,
    link or inline-code child is left out. *)
Theorem getBlockText_reads_direct_text
  (depth : nat) (children : list PhrasingContent) :
  getBlockText (Paragraph children)
  = getPhrasingText (filter is_text children)
  /\ getBlockText (Heading depth children)
     = getPhrasingText (filter is_text children)
  /\ (forall w nested,
        getBlockText (Paragraph (wrap w nested :: children))
        = getBlockText (Paragraph children))
  /\ (forall value,
        getBlockText (Paragraph (InlineCode value :: children))
        = getBlockText (Paragraph children)).
Proof.
  assert (H : join EmptyString (map text_value (filter is_text children))
              = getPhrasingText (filter is_text children)).
  { rewrite join_without_separator, text_value_is_node_text. reflexivity. }
  repeat split; try exact H.
  intros w nested. destruct w; reflexivity.
Qed.

(* ===================================================================== *)
(** ** Further properties of the batch emitter                            *)
(* ===================================================================== *)

Lemma answers_app server issued first second :
  answers server issued (first ++ second)
  = answers server issued first
    ++ answers server (issued ++ first) second.
Proof.
  revert issued. induction first as [|r first IH]; intros issued; simpl.
  - now rewrite app_nil_r.
  - rewrite IH, <- app_assoc. reflexivity.
Qed.

Lemma appendLoop_settles
  (server : list FetchRequest -> FetchRequest -> FetchResponse)
  (apiKey blockId : string) (blocks : list NotionBlock) (fuel : nat) :
  forall i issued,
    List.length blocks - i <= fuel ->
    exists new,
      fst (appendLoop server apiKey blockId blocks i issued) = issued ++ new
      /\ match snd (appendLoop server apiKey blockId blocks i issued) with
         | Resolved _ =>
             answers server issued new = repeat true (List.length new)
             /\ List.concat (batches_of new) = skipn i blocks
         | Rejected message =>
             exists before refused,
               new = before ++ [refused]
               /\ answers server issued before
                  = repeat true (List.length before)
               /\ response_ok (server (issued ++ before) refused) = false
               /\ message
                  = append_failure (server (issued ++ before) refused)
         end.
Proof.
  induction fuel as [|fuel IH]; intros i issued Hfuel;
    rewrite appendLoop_iteration;
    destruct (lt_dec i (List.length blocks)) as [Hlt|Hge]; try lia.
  1, 3:
    exists []; simpl; rewrite app_nil_r; split; [reflexivity|];
    split; [reflexivity|]; now rewrite skipn_all2 by lia.
  cbv zeta.
  set (batch := firstn BLOCKS_PER_REQUEST (skipn i blocks)).
  set (request := appendRequest apiKey blockId batch).
  destruct (response_ok (server issued request)) eqn:Hok.
  - destruct (IH (i + BLOCKS_PER_REQUEST) (issued ++ [request]))
      as (new & Hrun & Hout).
    { unfold BLOCKS_PER_REQUEST. lia. }
    exists (request :: new). split.
    + rewrite Hrun, <- app_assoc. reflexivity.
    + destruct (snd (appendLoop server apiKey blockId blocks
                       (i + BLOCKS_PER_REQUEST) (issued ++ [request]))).
      * destruct Hout as [Hanswers Hconcat]. split.
        -- simpl. now rewrite Hok, Hanswers.
        -- simpl. rewrite Hconcat. unfold batch.
           rewrite Nat.add_comm, <- skipn_skipn. apply firstn_skipn.
      * destruct Hout as (before & refused & -> & Hanswers & Hno & Hmsg).
        exists (request :: before), refused. repeat split.
        -- simpl. now rewrite Hok, Hanswers.
        -- simpl. now rewrite <- app_assoc in Hno.
        -- simpl. now rewrite <- app_assoc in Hmsg.
  - exists [request]. split; [reflexivity|].
    exists [], request. simpl. rewrite app_nil_r.
    repeat split. exact Hok.
Qed.

(** X6: the batch emitter stops at the first refused request.  It
    resolves only when every request it issued was accepted, and then the
    groups issued make up the whole sequence; it rejects exactly at a
    refused request, which is the last one issued (every request before
    it having been accepted), with the message ["Notion append blocks
    failed: <status> <body>"] of that response. *)
Theorem append_stops_at_first_refusal
  (server : list FetchRequest -> FetchRequest -> FetchResponse)
  (apiKey blockId : string) (blocks : list NotionBlock)
  (issued : list FetchRequest) :
  exists new,
    fst (appendBlocksInBatches server apiKey blockId blocks issued)
    = issued ++ new
    /\ match snd (appendBlocksInBatches server apiKey blockId blocks issued)
       with
       | Resolved _ =>
           answers server issued new = repeat true (List.length new)
           /\ List.concat (batches_of new) = blocks
       | Rejected message =>
           exists before refused,
             new = before ++ [refused]
             /\ answers server issued before
                = repeat true (List.length before)
             /\ response_ok (server (issued ++ before) refused) = false
             /\ message
                = append_failure (server (issued ++ before) refused)
       end.
Proof.
  apply (@appendLoop_settles server apiKey blockId blocks
           (List.length blocks) 0 issued). lia.
Qed.

Lemma batch_sizes_count (total : nat) :
  List.length (batch_sizes total) = (total + 99) / 100.
Proof.
  unfold batch_sizes, BLOCKS_PER_REQUEST.
  rewrite length_app, repeat_length.
  pose proof (Nat.div_mod_eq total 100) as Hdm.
  pose proof (Nat.mod_upper_bound total 100 ltac:(lia)) as Hlt.
  destruct (Nat.eqb_spec (total mod 100) 0) as [Hz|Hnz]; cbn [List.length].
  - apply Nat.div_unique with (r := 99); lia.
  - apply Nat.div_unique with (r := total mod 100 - 1); lia.
Qed.

(** X7: when the service accepts every request, the batch emitter issues
    the number of blocks divided by 100, rounded up, requests: none for
    an empty sequence, one for 1 to 100 blocks. *)
Theorem append_request_count
  (server : list FetchRequest -> FetchRequest -> FetchResponse)
  (apiKey blockId : string) (blocks : list NotionBlock)
  (issued : list FetchRequest) :
  (forall history request, response_ok (server history request) = true) ->
  List.length (fst (appendBlocksInBatches server apiKey blockId blocks
                      issued))
  = List.length issued + (List.length blocks + 99) / 100.
Proof.
  intros Haccepts.
  destruct (@appendLoop_accepted server apiKey blockId blocks Haccepts
              (List.length blocks) 0 issued)
    as (batches & Hrun & _ & _ & Hlengths); [lia|].
  unfold appendBlocksInBatches. rewrite Hrun. cbn [fst].
  rewrite length_app, length_map.
  rewrite <- (length_map (@List.length NotionBlock) batches), Hlengths.
  rewrite Nat.sub_0_r. now rewrite batch_sizes_count.
Qed.

Lemma append_request_count_witness :
  List.length (fst (appendBlocksInBatches always_ok "secret" "page"
                      (repeat divider 101) []))
  = List.length (@nil FetchRequest)
    + (List.length (repeat divider 101) + 99) / 100.
Proof.
  apply (@append_request_count always_ok "secret" "page"
           (repeat divider 101) []).
  intros history request. reflexivity.
Defined.

(* ===================================================================== *)
(** ** The Notion client                                                  *)
(* ===================================================================== *)

Section NotionClientFacts.

Variable service : Service.
Variable fromMarkdown : string -> Root.

Lemma getBlockChildrenLoop_calls (apiKey blockId : string) (pages : nat) :
  forall all cursor trace trace' out,
    getBlockChildrenLoop service pages apiKey blockId all cursor trace
    = Some (trace', out) ->
    exists gets,
      trace' = trace ++ gets
      /\ Forall (fun call => is_update call = false) gets.
Proof.
  induction pages as [|pages IH]; intros all cursor trace trace' out;
    [discriminate|].
  cbn [getBlockChildrenLoop]. unfold bind at 1, perform at 1.
  set (call := GetChildren apiKey blockId (truthy_token cursor)).
  destruct (reply_ok (service trace call)); cbn [negb].
  - cbv zeta.
    destruct (truthy_token
                (if has_more (reply_json (service trace call))
                 then next_cursor (reply_json (service trace call))
                 else None)) as [next|].
    + intros Hrun. apply IH in Hrun. destruct Hrun as (gets & -> & Hgets).
      exists (call :: gets). split.
      * now rewrite <- app_assoc.
      * now constructor.
    + intros [= <- <-]. exists [call]. split; [reflexivity|].
      now repeat constructor.
  - intros [= <- <-]. exists [call]. split; [reflexivity|].
    now repeat constructor.
Qed.

Lemma deleteBlocks_calls (apiKey : string)
  (children : list NotionBlockChild) :
  forall trace,
    exists deleted out,
      deleteBlocks service apiKey children trace
      = Some (trace ++ map (deletion apiKey) deleted, out)
      /\ (out = Resolved tt -> deleted = children).
Proof.
  induction children as [|child rest IH]; intros trace.
  - exists [], (Resolved tt). simpl. unfold ret. now rewrite app_nil_r.
  - cbn [deleteBlocks]. unfold bind at 1, deleteBlock.
    unfold bind at 1, perform at 1.
    destruct (reply_ok (service trace (DeleteBlock apiKey (child_id child))));
      cbn [negb].
    + unfold ret at 1.
      destruct (IH (trace ++ [DeleteBlock apiKey (child_id child)]))
        as (deleted & out & Hrun & Hall).
      exists (child :: deleted), out. split.
      * rewrite Hrun, <- app_assoc. reflexivity.
      * intros Hout. now rewrite (Hall Hout).
    + unfold throw at 1.
      exists [child]. eexists. split; [reflexivity | discriminate].
Qed.

Lemma appendBlocks_calls (apiKey blockId : string)
  (blocks : list NotionBlock) (trace : Trace) :
  exists batches out,
    appendBlocks service apiKey blockId blocks trace
    = Some (trace
            ++ map AppendChildren
                 (map (appendRequest apiKey blockId) batches), out)
    /\ (out = Resolved tt -> List.concat batches = blocks).
Proof.
  unfold appendBlocks, appendBlocksInBatches.
  destruct (@issued_batches_are_a_prefix (append_server service trace)
              apiKey blockId blocks (List.length blocks) 0 [])
    as (batches & remaining & Hrun & _ & _); [lia|].
  destruct (@appendLoop_settles (append_server service trace)
              apiKey blockId blocks (List.length blocks) 0 [])
    as (new & Hnew & Hout); [lia|].
  cbn [app] in Hrun, Hnew.
  exists batches. eexists. split.
  - rewrite Hrun. reflexivity.
  - intros Hres. rewrite Hres in Hout. destruct Hout as [_ Hconcat].
    rewrite <- Hnew, Hrun in Hconcat. unfold batches_of in Hconcat.
    rewrite map_map in Hconcat. cbn [request_children appendRequest] in Hconcat.
    now rewrite map_id in Hconcat.
Qed.

Lemma update_not_among (calls : list Call) (apiKey pageId modified : string) :
  Forall (fun call => is_update call = false) calls ->
  ~ In (UpdateModified apiKey pageId modified) calls.
Proof.
  intros Hnone Hin. rewrite Forall_forall in Hnone.
  apply Hnone in Hin. discriminate.
Qed.

Lemma no_update_in_deletions (apiKey : string)
  (children : list NotionBlockChild) :
  Forall (fun call => is_update call = false)
    (map (deletion apiKey) children).
Proof. apply Forall_map, Forall_forall. reflexivity. Qed.

Lemma no_update_in_appends (requests : list FetchRequest) :
  Forall (fun call => is_update call = false)
    (map AppendChildren requests).
Proof. apply Forall_map, Forall_forall. reflexivity. Qed.

Lemma replies_ok_app (history first second : Trace) :
  replies_ok service history (first ++ second)
  = replies_ok service history first
    && replies_ok service (history ++ first) second.
Proof.
  revert history. induction first as [|call first IH]; intros history.
  - cbn [app replies_ok andb]. now rewrite app_nil_r.
  - cbn [app replies_ok]. rewrite IH, <- app_assoc, andb_assoc.
    reflexivity.
Qed.

Lemma getBlockChildrenLoop_accepted (apiKey blockId : string) (pages : nat) :
  forall all cursor trace trace' children,
    getBlockChildrenLoop service pages apiKey blockId all cursor trace
    = Some (trace', Resolved children) ->
    exists gets,
      trace' = trace ++ gets /\ replies_ok service trace gets = true.
Proof.
  induction pages as [|pages IH]; intros all cursor trace trace' children;
    [discriminate|].
  cbn [getBlockChildrenLoop]. unfold bind at 1, perform at 1.
  set (call := GetChildren apiKey blockId (truthy_token cursor)).
  destruct (reply_ok (service trace call)) eqn:Hok; cbn [negb];
    [|discriminate].
  cbv zeta.
  destruct (truthy_token
              (if has_more (reply_json (service trace call))
               then next_cursor (reply_json (service trace call))
               else None)) as [next|].
  - intros Hrun. apply IH in Hrun. destruct Hrun as (gets & -> & Hgets).
    exists (call :: gets). split; [now rewrite <- app_assoc|].
    cbn [replies_ok]. now rewrite Hok, Hgets.
  - intros [= <- <-]. exists [call]. split; [reflexivity|].
    cbn [replies_ok]. now rewrite Hok.
Qed.

Lemma deleteBlocks_accepted (apiKey : string)
  (children : list NotionBlockChild) :
  forall trace trace',
    deleteBlocks service apiKey children trace
    = Some (trace', Resolved tt) ->
    replies_ok service trace (map (deletion apiKey) children) = true.
Proof.
  induction children as [|child rest IH]; intros trace trace';
    [reflexivity|].
  cbn [deleteBlocks]. unfold bind at 1, deleteBlock.
  unfold bind at 1, perform at 1.
  destruct (reply_ok (service trace (DeleteBlock apiKey (child_id child))))
    eqn:Hok; cbn [negb]; [|discriminate].
  unfold ret at 1. intros Hrun. apply IH in Hrun.
  cbn [map replies_ok].
  change (deletion apiKey child) with (DeleteBlock apiKey (child_id child)).
  now rewrite Hok, Hrun.
Qed.

Lemma answers_are_replies (trace : Trace) (new : list FetchRequest) :
  forall issued,
    answers (append_server service trace) issued new
    = repeat true (List.length new) ->
    replies_ok service (trace ++ map AppendChildren issued)
      (map AppendChildren new) = true.
Proof.
  induction new as [|request rest IH]; intros issued; [reflexivity|].
  cbn [answers List.length repeat map replies_ok].
  intros [= Hok Hrest]. apply IH in Hrest.
  apply andb_true_intro. split; [exact Hok|].
  rewrite map_app in Hrest. cbn [map] in Hrest.
  now rewrite app_assoc in Hrest.
Qed.

Lemma appendBlocks_accepted (apiKey blockId : string)
  (blocks : list NotionBlock) (trace trace' : Trace) :
  appendBlocks service apiKey blockId blocks trace
  = Some (trace', Resolved tt) ->
  exists requests,
    trace' = trace ++ map AppendChildren requests
    /\ replies_ok service trace (map AppendChildren requests) = true.
Proof.
  unfold appendBlocks, appendBlocksInBatches.
  destruct (@appendLoop_settles (append_server service trace)
              apiKey blockId blocks (List.length blocks) 0 [])
    as (new & Hnew & Hout); [lia|].
  cbn [app] in Hnew. intros [= <- Hres].
  rewrite Hres in Hout. destruct Hout as [Hanswers _].
  exists new. split; [now rewrite Hnew|].
  apply answers_are_replies in Hanswers.
  cbn [map] in Hanswers. now rewrite app_nil_r in Hanswers.
Qed.

(** X8: [updatePage] writes the modification marker last and only after
    the rest succeeded.  When a run settles, it resolves only if the
    marker call was made; and whenever the marker call was made, the
    calls of the run are, in this order: the listing of the page's
    children, one delete per listed child, the append requests, whose
    groups make up all the converted blocks, and then the marker call as
    the very last; every call before the marker call was accepted by the
    service; and the run resolves if the marker call is accepted and
    rejects with its status and body otherwise. *)
Theorem update_marker_is_written_last
  (pages : nat) (apiKey pageId markdown driveModified : string)
  (trace new : Trace) (out : Settled unit) :
  updatePage service fromMarkdown pages apiKey pageId markdown driveModified
    trace
  = Some (trace ++ new, out) ->
  (out = Resolved tt -> In (UpdateModified apiKey pageId driveModified) new)
  /\ (In (UpdateModified apiKey pageId driveModified) new ->
      exists gets children batches,
        getBlockChildren service pages apiKey pageId trace
        = Some (trace ++ gets, Resolved children)
        /\ Forall (fun call => is_update call = false) gets
        /\ new
           = gets ++ map (deletion apiKey) children
             ++ map AppendChildren
                  (map (appendRequest apiKey pageId) batches)
             ++ [UpdateModified apiKey pageId driveModified]
        /\ List.concat batches = markdownToNotionBlocks fromMarkdown markdown
        /\ replies_ok service trace (removelast new) = true
        /\ out
           = let reply :=
               service (trace ++ removelast new)
                 (UpdateModified apiKey pageId driveModified) in
             if reply_ok reply then Resolved tt
             else Rejected
                    (failure_message "Notion update page failed: " reply)).
Proof.
  intros Hrun. unfold updatePage in Hrun. cbv zeta in Hrun.
  unfold formatDateForNotion in Hrun.
  unfold bind at 1 in Hrun.
  destruct (getBlockChildren service pages apiKey pageId trace)
    as [[trace1 [children|message]]|] eqn:Hget; [| |discriminate].
  2:{ (* the listing was refused *)
      apply getBlockChildrenLoop_calls in Hget.
      destruct Hget as (gets & -> & Hgets).
      injection Hrun as Hnew <-. apply app_inv_head in Hnew. subst new.
      split; [discriminate|]. intros Hin.
      now apply update_not_among in Hin. }
  pose proof (getBlockChildrenLoop_calls _ _ _ _ _ _ Hget)
    as (gets & -> & Hgets).
  assert (Hgets_ok : replies_ok service trace gets = true).
  { pose proof Hget as Haccepted.
    apply getBlockChildrenLoop_accepted in Haccepted.
    destruct Haccepted as (gets' & Heq & Hok).
    apply app_inv_head in Heq. now subst gets'. }
  unfold bind at 1 in Hrun.
  destruct (deleteBlocks_calls apiKey children (trace ++ gets))
    as (deleted & dout & Hdel & Hall).
  rewrite Hdel in Hrun. destruct dout as [[]|message].
  2:{ (* a delete was refused *)
      injection Hrun as Hnew <-. rewrite <- app_assoc in Hnew.
      apply app_inv_head in Hnew. subst new.
      split; [discriminate|]. intros Hin. exfalso.
      apply in_app_or in Hin. destruct Hin as [Hin|Hin].
      - now apply update_not_among in Hin.
      - apply update_not_among in Hin; [exact Hin|].
        apply no_update_in_deletions. }
  pose proof Hdel as Hdels_ok. apply deleteBlocks_accepted in Hdels_ok.
  rewrite (Hall eq_refl) in *. clear Hall Hdel deleted.
  unfold bind at 1 in Hrun.
  assert (Happend :
    exists batches aout,
      (if (0 <? List.length (markdownToNotionBlocks fromMarkdown markdown))%nat
       then appendBlocks service apiKey pageId
              (markdownToNotionBlocks fromMarkdown markdown)
       else ret tt)
        ((trace ++ gets) ++ map (deletion apiKey) children)
      = Some (((trace ++ gets) ++ map (deletion apiKey) children)
              ++ map AppendChildren
                   (map (appendRequest apiKey pageId) batches), aout)
      /\ (aout = Resolved tt ->
          List.concat batches = markdownToNotionBlocks fromMarkdown markdown
          /\ replies_ok service
               ((trace ++ gets) ++ map (deletion apiKey) children)
               (map AppendChildren
                  (map (appendRequest apiKey pageId) batches)) = true)).
  { destruct (0 <? List.length (markdownToNotionBlocks fromMarkdown markdown))%nat
      eqn:Hlen.
    - destruct (appendBlocks_calls apiKey pageId
                  (markdownToNotionBlocks fromMarkdown markdown)
                  ((trace ++ gets) ++ map (deletion apiKey) children))
        as (batches & aout & Happ & Hconcat).
      exists batches, aout. split; [exact Happ|].
      intros Hres. split; [now apply Hconcat|]. subst aout.
      pose proof Happ as Haccepted.
      apply appendBlocks_accepted in Haccepted.
      destruct Haccepted as (requests & Heq & Hok).
      apply app_inv_head in Heq. now rewrite Heq.
    - exists [], (Resolved tt). unfold ret. simpl. rewrite app_nil_r.
      split; [reflexivity|]. intros _. split; [|reflexivity].
      apply Nat.ltb_ge in Hlen.
      destruct (markdownToNotionBlocks fromMarkdown markdown);
        [reflexivity | simpl in Hlen; lia]. }
  destruct Happend as (batches & aout & Happ & Hconcat).
  rewrite Happ in Hrun. destruct aout as [[]|message].
  2:{ (* an append was refused *)
      injection Hrun as Hnew <-. rewrite <- !app_assoc in Hnew.
      apply app_inv_head in Hnew. subst new.
      split; [discriminate|]. intros Hin. exfalso.
      apply in_app_or in Hin. destruct Hin as [Hin|Hin].
      - now apply update_not_among in Hin.
      - apply in_app_or in Hin. destruct Hin as [Hin|Hin].
        + apply update_not_among in Hin; [exact Hin|].
          apply no_update_in_deletions.
        + apply update_not_among in Hin; [exact Hin|].
          apply no_update_in_appends. }
  destruct (Hconcat eq_refl) as [Hblocks Happs_ok].
  unfold bind at 1, perform at 1 in Hrun.
  set (before := ((trace ++ gets) ++ map (deletion apiKey) children)
                 ++ map AppendChildren
                      (map (appendRequest apiKey pageId) batches)) in *.
  assert (Hnew : new
                 = gets ++ map (deletion apiKey) children
                   ++ map AppendChildren
                        (map (appendRequest apiKey pageId) batches)
                   ++ [UpdateModified apiKey pageId driveModified]).
  { destruct (reply_ok (service before
                          (UpdateModified apiKey pageId driveModified)));
      cbn [negb] in Hrun; injection Hrun as Hrun _;
      unfold before in Hrun; rewrite <- !app_assoc in Hrun;
      now apply app_inv_head in Hrun. }
  assert (Hlast : removelast new
                  = gets ++ map (deletion apiKey) children
                    ++ map AppendChildren
                         (map (appendRequest apiKey pageId) batches)).
  { rewrite Hnew, !app_assoc, removelast_last. reflexivity. }
  assert (Hbefore : trace ++ removelast new = before).
  { rewrite Hlast. unfold before. now rewrite !app_assoc. }
  split.
  - intros _. rewrite Hnew. rewrite !in_app_iff. do 3 right. now left.
  - intros _. exists gets, children, batches.
    split; [reflexivity|]. split; [exact Hgets|]. split; [exact Hnew|].
    split; [exact Hblocks|]. split.
    + rewrite Hlast, !replies_ok_app, Hgets_ok, Hdels_ok. cbn [andb].
      exact Happs_ok.
    + cbv zeta. rewrite Hbefore.
      destruct (reply_ok (service before
                            (UpdateModified apiKey pageId driveModified)));
        cbn [negb] in Hrun; now injection Hrun as _ <-.
Qed.

(** X9: [createPage] always settles, and creates before it appends: its
    calls are the page creation (which already carries the modification
    marker) followed by append requests addressed to the page id the
    service returned.  A refused creation is the only call and rejects
    with its status and body; no append is made for a document without
    blocks; and the run resolves, with the returned page id, only if the
    creation was accepted and the groups appended make up all the
    converted blocks. *)
Theorem createPage_creates_then_appends
  (apiKey databaseId title driveFileId driveModified markdown : string)
  (trace : Trace) :
  let create :=
    CreatePage apiKey databaseId title driveFileId driveModified in
  let reply := service trace create in
  let pageId : string := reply_json reply in
  let blocks := markdownToNotionBlocks fromMarkdown markdown in
  exists batches out,
    createPage service fromMarkdown apiKey databaseId title driveFileId
      driveModified markdown trace
    = Some (trace
            ++ create
               :: map AppendChildren
                    (map (appendRequest apiKey pageId) batches), out)
    /\ (reply_ok reply = false ->
        batches = []
        /\ out = Rejected
                   (failure_message "Notion create page failed: " reply))
    /\ (forall id, out = Resolved id ->
          id = pageId /\ reply_ok reply = true
          /\ List.concat batches = blocks)
    /\ (blocks = [] -> batches = []).
Proof.
  cbv zeta. unfold createPage, formatDateForNotion. cbv zeta.
  unfold bind at 1, perform at 1.
  set (create := CreatePage apiKey databaseId title driveFileId driveModified).
  destruct (reply_ok (service trace create)) eqn:Hok; cbn [negb].
  - unfold bind at 1.
    destruct (0 <? List.length (markdownToNotionBlocks fromMarkdown markdown))%nat
      eqn:Hlen.
    + destruct (appendBlocks_calls apiKey (reply_json (service trace create))
                  (markdownToNotionBlocks fromMarkdown markdown)
                  (trace ++ [create]))
        as (batches & aout & Happ & Hconcat).
      rewrite Happ. exists batches.
      destruct aout as [[]|message]; eexists; unfold ret; cbv beta iota;
        (split; [rewrite <- app_assoc; reflexivity|]);
        (split; [discriminate|]).
      * split.
        -- intros id [= <-]. repeat split. now apply Hconcat.
        -- intros Hnil. rewrite Hnil in Hlen. discriminate.
      * split; [discriminate|].
        intros Hnil. rewrite Hnil in Hlen. discriminate.
    + exists []. eexists. unfold ret. cbn [map]. cbv beta iota.
      split; [reflexivity|].
      split; [discriminate|]. split; [|reflexivity].
      intros id [= <-]. repeat split.
      apply Nat.ltb_ge in Hlen.
      destruct (markdownToNotionBlocks fromMarkdown markdown);
        [reflexivity | simpl in Hlen; lia].
  - exists []. eexists. unfold throw. cbn [map].
    split; [reflexivity|]. split; [now split|].
    split; [discriminate | reflexivity].
Qed.

End NotionClientFacts.

(* ===================================================================== *)
(** ** The sync loop                                                      *)
(* ===================================================================== *)

Section WorkerFacts.

Variable service : Service.
Variable fromMarkdown : string -> Root.
Variable JSON_parse : string -> Settled Json.
Variable getAccessToken : ServiceAccountCredentials -> string -> Async string.

Lemma syncDocs_counts (pages : nat) (env : Env) (accessToken : string)
  (docs : list GoogleDocInfo) :
  forall counters trace trace' out,
    syncDocs service fromMarkdown pages env accessToken docs counters trace
    = Some (trace', out) ->
    exists result,
      out = Resolved result
      /\ synced result + skipped result + failed result
         = synced counters + skipped counters + failed counters
           + List.length docs.
Proof.
  induction docs as [|doc rest IH]; intros counters trace trace' out.
  - intros [= <- <-]. exists counters. split; [reflexivity | simpl; lia].
  - cbn [syncDocs]. unfold bind at 1, try_catch, bind at 1.
    destruct (syncDoc service fromMarkdown pages env accessToken doc trace)
      as [[trace1 [outcome|message]]|]; [| |discriminate];
      unfold ret at 1; intros Hrest; apply IH in Hrest;
      destruct Hrest as (result & -> & Hsum);
      exists result; (split; [reflexivity|]);
      [destruct outcome|]; simpl in *; lia.
Qed.

(** X10: [runSync] accounts for every document exactly once.  When it
    resolves, the credentials were parsed, the token obtained and the
    documents listed, and the three counters add up to the number of
    documents listed, whatever happened while syncing each of them; it
    rejects only because the credentials, the token or the listing
    failed, never because syncing a document failed. *)
Theorem runSync_counts_every_document
  (depth pages : nat) (env : Env) (trace trace' : Trace)
  (out : Settled SyncResult) :
  runSync service fromMarkdown JSON_parse getAccessToken depth pages env
    trace
  = Some (trace', out) ->
  match out with
  | Resolved result =>
      exists credentials accessToken trace1 trace2 docs,
        parseServiceAccountJson JSON_parse (GOOGLE_SERVICE_ACCOUNT_JSON env)
        = Resolved credentials
        /\ getAccessToken credentials (GOOGLE_IMPERSONATE_USER env) trace
           = Some (trace1, Resolved accessToken)
        /\ listAllGoogleDocs service depth accessToken
             (GOOGLE_DRIVE_SHARED_DRIVE_ID env) trace1
           = Some (trace2, Resolved docs)
        /\ synced result + skipped result + failed result
           = List.length docs
  | Rejected message =>
      parseServiceAccountJson JSON_parse (GOOGLE_SERVICE_ACCOUNT_JSON env)
      = Rejected message
      \/ exists credentials,
           parseServiceAccountJson JSON_parse
             (GOOGLE_SERVICE_ACCOUNT_JSON env)
           = Resolved credentials
           /\ (getAccessToken credentials (GOOGLE_IMPERSONATE_USER env)
                 trace
               = Some (trace', Rejected message)
               \/ exists accessToken trace1,
                    getAccessToken credentials (GOOGLE_IMPERSONATE_USER env)
                      trace
                    = Some (trace1, Resolved accessToken)
                    /\ listAllGoogleDocs service depth accessToken
                         (GOOGLE_DRIVE_SHARED_DRIVE_ID env) trace1
                       = Some (trace', Rejected message))
  end.
Proof.
  unfold runSync.
  destruct (parseServiceAccountJson JSON_parse
              (GOOGLE_SERVICE_ACCOUNT_JSON env)) as [credentials|message].
  2:{ intros [= <- <-]. now left. }
  unfold bind at 1.
  destruct (getAccessToken credentials (GOOGLE_IMPERSONATE_USER env) trace)
    as [[trace1 [accessToken|message]]|] eqn:Htoken; [| |discriminate].
  2:{ intros [= <- <-]. right. exists credentials.
      split; [reflexivity | now left]. }
  unfold bind at 1.
  destruct (listAllGoogleDocs service depth accessToken
              (GOOGLE_DRIVE_SHARED_DRIVE_ID env) trace1)
    as [[trace2 [docs|message]]|] eqn:Hdocs; [| |discriminate].
  2:{ intros [= <- <-]. right. exists credentials.
      split; [reflexivity|]. right. now exists accessToken, trace1. }
  intros Hloop. apply syncDocs_counts in Hloop.
  destruct Hloop as (result & -> & Hsum).
  exists credentials, accessToken, trace1, trace2, docs.
  repeat split; assumption.
Qed.

Lemma unchanged_iff (page : NotionPage) (driveModified : string) :
  unchanged page driveModified = true
  <-> storedModified page = Some driveModified
      /\ driveModified <> EmptyString.
Proof.
  unfold unchanged, truthy_token.
  destruct (storedModified page) as [stored|].
  - destruct stored as [|c stored]; cbn [truthy_string].
    + split; [discriminate|]. intros [[= <-] Hne]. now elim Hne.
    + split.
      * intros Heq. apply String.eqb_eq in Heq. subst. now split.
      * intros [[= <-] _]. apply String.eqb_refl.
  - split; [discriminate|]. intros [[=] _].
Qed.

Lemma bind_resolved (A B : Type) (m : Async A) (k : A -> Async B)
  (trace trace' : Trace) (b : B) :
  bind m k trace = Some (trace', Resolved b) ->
  exists a trace1,
    m trace = Some (trace1, Resolved a)
    /\ k a trace1 = Some (trace', Resolved b).
Proof.
  unfold bind.
  destruct (m trace) as [[trace1 [a|message]]|]; try discriminate.
  intros Hk. now exists a, trace1.
Qed.

(** X11: a document is skipped exactly on an equal, non-empty marker.
    An iteration of the sync loop ends with the document counted as
    skipped if and only if the query was accepted and the first page it
    returned stores, under ["Drive Modified"], a date equal to the
    document's modification time, that time not being the empty string;
    the query is then the only call of the iteration.  So a document
    without a modification time (recorded as the empty string by the
    traversal) is never skipped, and neither is one whose page is
    missing or stores another date. *)
Theorem unchanged_document_is_skipped
  (pages : nat) (env : Env) (accessToken : string) (doc : GoogleDocInfo)
  (trace trace' : Trace) :
  let query :=
    QueryByDriveId (NOTION_API_KEY env) (NOTION_DATABASE_ID env)
      (doc_id doc) in
  syncDoc service fromMarkdown pages env accessToken doc trace
  = Some (trace', Resolved DocSkipped)
  <-> trace' = trace ++ [query]
      /\ reply_ok (service trace query) = true
      /\ exists page,
           hd_error (reply_json (service trace query) : list NotionPage)
           = Some page
           /\ storedModified page = Some (doc_modifiedTime doc)
           /\ doc_modifiedTime doc <> EmptyString.
Proof.
  cbv zeta. unfold syncDoc, queryDatabaseByDriveId.
  unfold bind at 1, bind at 1, perform at 1.
  set (query := QueryByDriveId (NOTION_API_KEY env) (NOTION_DATABASE_ID env)
                  (doc_id doc)).
  destruct (reply_ok (service trace query)) eqn:Hok; cbn [negb].
  2:{ unfold throw. split; [discriminate|]. now intros (_ & Hno & _). }
  unfold ret at 1. cbv zeta.
  destruct (hd_error (reply_json (service trace query))) as [page|] eqn:Hfirst.
  - destruct (unchanged page (doc_modifiedTime doc)) eqn:Hunchanged.
    + unfold ret. split.
      * intros [= <-]. split; [reflexivity|]. split; [reflexivity|].
        exists page. split; [reflexivity|]. now apply unchanged_iff.
      * now intros (-> & _).
    + split.
      * intros Hrun. apply bind_resolved in Hrun.
        destruct Hrun as (markdown & trace1 & _ & Hrun).
        apply bind_resolved in Hrun.
        destruct Hrun as ([] & trace2 & _ & Hrun). discriminate.
      * intros (_ & _ & other & Hother & Hstored & Hnonempty).
        injection Hother as <-.
        assert (unchanged page (doc_modifiedTime doc) = true)
          by now apply unchanged_iff.
        congruence.
  - split.
    + intros Hrun. apply bind_resolved in Hrun.
      destruct Hrun as (markdown & trace1 & _ & Hrun).
      apply bind_resolved in Hrun.
      destruct Hrun as (pageId & trace2 & _ & Hrun). discriminate.
    + now intros (_ & _ & other & Hother & _).
Qed.

End WorkerFacts.

Lemma update_marker_is_written_last_witness :
  (Resolved tt = Resolved tt ->
   In (UpdateModified "key" "page" "2024-01-01") sample_update_calls)
  /\ (In (UpdateModified "key" "page" "2024-01-01") sample_update_calls ->
      exists gets children batches,
        getBlockChildren obliging 1 "key" "page" []
        = Some ([] ++ gets, Resolved children)
        /\ Forall (fun call => is_update call = false) gets
        /\ sample_update_calls
           = gets ++ map (deletion "key") children
             ++ map AppendChildren
                  (map (appendRequest "key" "page") batches)
             ++ [UpdateModified "key" "page" "2024-01-01"]
        /\ List.concat batches = markdownToNotionBlocks one_paragraph "md"
        /\ replies_ok obliging [] (removelast sample_update_calls) = true
        /\ Resolved tt
           = let reply :=
               obliging ([] ++ removelast sample_update_calls)
                 (UpdateModified "key" "page" "2024-01-01") in
             if reply_ok reply then Resolved tt
             else Rejected
                    (failure_message "Notion update page failed: " reply)).
Proof.
  apply (@update_marker_is_written_last obliging one_paragraph 1
           "key" "page" "md" "2024-01-01" [] sample_update_calls
           (Resolved tt)).
  vm_compute. reflexivity.
Defined.

Lemma runSync_counts_every_document_witness :
  exists credentials accessToken trace1 trace2 docs,
    parseServiceAccountJson sample_parse
      (GOOGLE_SERVICE_ACCOUNT_JSON sample_env)
    = Resolved credentials
    /\ sample_token credentials (GOOGLE_IMPERSONATE_USER sample_env) []
       = Some (trace1, Resolved accessToken)
    /\ listAllGoogleDocs (one_doc_world false) 1 accessToken
         (GOOGLE_DRIVE_SHARED_DRIVE_ID sample_env) trace1
       = Some (trace2, Resolved docs)
    /\ synced {| synced := 1; skipped := 0; failed := 0 |}
       + skipped {| synced := 1; skipped := 0; failed := 0 |}
       + failed {| synced := 1; skipped := 0; failed := 0 |}
       = List.length docs.
Proof.
  apply (@runSync_counts_every_document (one_doc_world false) one_paragraph
           sample_parse sample_token 1 1 sample_env [] sample_sync_calls
           (Resolved {| synced := 1; skipped := 0; failed := 0 |})).
  vm_compute. reflexivity.
Defined.

Lemma unchanged_document_is_skipped_witness :
  syncDoc (one_doc_world true) one_paragraph 1 sample_env "token"
    (docInfo sample_file) []
  = Some ([QueryByDriveId "key" "db" "doc-1"], Resolved DocSkipped).
Proof.
  apply (proj2 (@unchanged_document_is_skipped (one_doc_world true)
                  one_paragraph 1 sample_env "token" (docInfo sample_file)
                  [] [QueryByDriveId "key" "db" "doc-1"])).
  split; [reflexivity|]. split; [reflexivity|].
  eexists. split; [reflexivity|]. split; [reflexivity | discriminate].
Defined.

(* ===================================================================== *)
(** ** The drive traversal                                                *)
(* ===================================================================== *)

(** Lists of calls are compared after reassociating to the right. *)
Ltac right_assoc :=
  repeat (rewrite <- app_assoc || rewrite <- app_comm_cons);
  cbn [app].

Ltac right_assoc_in H :=
  repeat (rewrite <- app_assoc in H || rewrite <- app_comm_cons in H);
  cbn [app] in H.

Section TraversalFacts.

Variable service : Service.
Variables accessToken driveId : string.

Lemma listed_as_doc_widen (history extra trace' more : Trace)
  (info : GoogleDocInfo) :
  listed_as_doc service (history ++ extra) trace' info ->
  listed_as_doc service history (trace' ++ more) info.
Proof.
  intros (before & call & after & file & -> & Hin & Hmime & Hinfo).
  exists (extra ++ before), call, (after ++ more), file.
  repeat split; try assumption.
  - right_assoc. reflexivity.
  - now rewrite app_assoc.
Qed.

Lemma eachFile_collects
  (enter : string -> list GoogleDocInfo -> Async (list GoogleDocInfo))
  (history : Trace) (call : Call) :
  (forall folderId results, collects service results (enter folderId results)) ->
  forall remaining results later trace' out,
    (forall file, In file remaining -> In file (listing service history call)) ->
    eachFile enter remaining results (history ++ call :: later)
    = Some (trace', out) ->
    exists new,
      trace' = (history ++ call :: later) ++ new
      /\ Forall (fun c => is_listing c = true) new
      /\ forall collected,
           out = Resolved collected ->
           exists added,
             collected = results ++ added
             /\ Forall (listed_as_doc service history trace') added.
Proof.
  intros Henter.
  induction remaining as [|file rest IH];
    intros results later trace' out Hlisted Hrun.
  - injection Hrun as <- <-. exists []. rewrite app_nil_r.
    split; [reflexivity|]. split; [constructor|].
    intros collected [= <-]. exists []. now rewrite app_nil_r.
  - cbn [eachFile] in Hrun.
    assert (Hrest : forall f, In f rest -> In f (listing service history call))
      by (intros f Hf; apply Hlisted; now right).
    destruct (mimeType file =? GOOGLE_DOC_MIME)%string eqn:Hdoc.
    + apply IH in Hrun; [|exact Hrest].
      destruct Hrun as (new & -> & Hnew & Hcollected).
      exists new. split; [reflexivity|]. split; [exact Hnew|].
      intros collected Hout.
      destruct (Hcollected collected Hout) as (added & -> & Hadded).
      exists (docInfo file :: added). split.
      * now rewrite <- app_assoc.
      * constructor; [|exact Hadded].
        exists [], call, (later ++ new), file. repeat split.
        -- right_assoc. reflexivity.
        -- rewrite app_nil_r. apply Hlisted. now left.
        -- now apply String.eqb_eq.
    + destruct (mimeType file =? FOLDER_MIME)%string.
      * unfold bind at 1 in Hrun.
        destruct (enter (file_id file) results (history ++ call :: later))
          as [[trace1 [results1|message]]|] eqn:Hin; [| |discriminate].
        -- apply Henter in Hin.
           destruct Hin as (new1 & -> & Hnew1 & Hcollected1).
           destruct (Hcollected1 results1 eq_refl) as (added1 & -> & Hadded1).
           right_assoc_in Hrun.
           apply IH in Hrun; [|exact Hrest].
           destruct Hrun as (new2 & -> & Hnew2 & Hcollected2).
           exists (new1 ++ new2). split.
           { right_assoc. reflexivity. }
           split; [apply Forall_app; now split|].
           intros collected Hout.
           destruct (Hcollected2 collected Hout) as (added2 & -> & Hadded2).
           exists (added1 ++ added2). split; [now rewrite app_assoc|].
           apply Forall_app. split; [|exact Hadded2].
           eapply Forall_impl; [|exact Hadded1].
           intros info Hinfo.
           apply (@listed_as_doc_widen history (call :: later) _ new2)
             in Hinfo.
           right_assoc_in Hinfo. right_assoc. exact Hinfo.
        -- apply Henter in Hin.
           destruct Hin as (new1 & -> & Hnew1 & _).
           injection Hrun as <- <-. exists new1.
           split; [reflexivity|]. split; [exact Hnew1|]. discriminate.
      * now apply IH in Hrun.
Qed.

Lemma listFilesFrom_collects (depth : nat) :
  forall folderId pageToken results,
    collects service results
      (listFilesFrom service depth accessToken driveId folderId pageToken
         results).
Proof.
  induction depth as [|depth IH]; intros folderId pageToken results
    trace trace' out Hrun; [discriminate|].
  cbn [listFilesFrom] in Hrun.
  unfold bind at 1, listFiles, bind at 1, perform at 1 in Hrun.
  cbn [param_driveId param_folderId param_pageToken] in Hrun.
  set (call := ListFiles accessToken driveId
                 match truthy_token (Some folderId) with
                 | Some f => f
                 | None => driveId
                 end (truthy_token pageToken)) in *.
  destruct (reply_ok (service trace call)) eqn:Hok; cbn [negb] in Hrun.
  - unfold ret at 1 in Hrun. unfold bind at 1 in Hrun.
    destruct (eachFile _ _ results (trace ++ [call]))
      as [[trace1 [results1|message]]|] eqn:Heach; [| |discriminate].
    + apply (@eachFile_collects _ trace call) in Heach.
      2:{ intros f r. apply IH. }
      2:{ intros file Hfile. unfold listing. subst call. cbn.
          cbn in Hok. now rewrite Hok. }
      destruct Heach as (new1 & -> & Hnew1 & Hcollected1).
      destruct (Hcollected1 results1 eq_refl) as (added1 & -> & Hadded1).
      destruct (truthy_token (nextPageToken (reply_json (service trace call)))).
      * apply IH in Hrun.
        destruct Hrun as (new2 & -> & Hnew2 & Hcollected2).
        exists (call :: new1 ++ new2). split.
        { right_assoc. reflexivity. }
        split; [constructor; [reflexivity | apply Forall_app; now split]|].
        intros collected Hout.
        destruct (Hcollected2 collected Hout) as (added2 & -> & Hadded2).
        exists (added1 ++ added2). split; [now rewrite app_assoc|].
        apply Forall_app. split.
        -- eapply Forall_impl; [|exact Hadded1]. intros info Hinfo.
           rewrite <- (app_nil_r trace) in Hinfo at 1.
           apply (@listed_as_doc_widen trace [] _ new2) in Hinfo.
           right_assoc_in Hinfo. right_assoc. exact Hinfo.
        -- eapply Forall_impl; [|exact Hadded2]. intros info Hinfo.
           right_assoc_in Hinfo.
           replace (trace ++ call :: new1)
             with (trace ++ (call :: new1)) in Hinfo by reflexivity.
           apply (@listed_as_doc_widen trace (call :: new1) _ []) in Hinfo.
           right_assoc_in Hinfo. rewrite app_nil_r in Hinfo.
           right_assoc. exact Hinfo.
      * injection Hrun as <- <-.
        exists (call :: new1). split; [right_assoc; reflexivity|].
        split; [now constructor|].
        intros collected [= <-]. exists added1. split; [reflexivity|].
        eapply Forall_impl; [|exact Hadded1]. intros info Hinfo.
        rewrite <- (app_nil_r trace) in Hinfo at 1.
        apply (@listed_as_doc_widen trace [] _ []) in Hinfo.
        now rewrite app_nil_r in Hinfo.
    + apply (@eachFile_collects _ trace call) in Heach.
      2:{ intros f r. apply IH. }
      2:{ intros file Hfile. unfold listing. subst call. cbn.
          cbn in Hok. now rewrite Hok. }
      destruct Heach as (new1 & -> & Hnew1 & _).
      injection Hrun as <- <-.
      exists (call :: new1). split; [right_assoc; reflexivity|].
      split; [now constructor | discriminate].
  - injection Hrun as <- <-. exists [call].
    split; [reflexivity|]. split; [now repeat constructor | discriminate].
Qed.

(** X12: the traversal only reports documents the service listed.  A
    run of [listFilesRecursive] that settles has made listing calls only;
    when it resolves, it returns the array it was given followed by
    entries that were each read off a file listed with the Google Docs
    MIME type in answer to one of the calls of this run: files of other
    types add nothing, and nothing already collected is lost. *)
Theorem traversal_reports_listed_docs
  (depth : nat) (folderId : string) (results : list GoogleDocInfo)
  (trace trace' : Trace) (out : Settled (list GoogleDocInfo)) :
  listFilesRecursive service depth accessToken driveId folderId results
    trace
  = Some (trace', out) ->
  exists new,
    trace' = trace ++ new
    /\ Forall (fun call => is_listing call = true) new
    /\ forall collected,
         out = Resolved collected ->
         exists added,
           collected = results ++ added
           /\ Forall (listed_as_doc service trace trace') added.
Proof. apply listFilesFrom_collects. Qed.

Lemma eachFile_flat
  (enter : string -> list GoogleDocInfo -> Async (list GoogleDocInfo))
  (remaining : list DriveFile) :
  Forall (fun file => mimeType file <> FOLDER_MIME) remaining ->
  forall results trace,
    eachFile enter remaining results trace
    = Some (trace,
            Resolved
              (results
               ++ map docInfo
                    (filter (fun file =>
                               (mimeType file =? GOOGLE_DOC_MIME)%string)
                       remaining))).
Proof.
  induction 1 as [|file rest Hfile _ IH]; intros results trace.
  - simpl. unfold ret. now rewrite app_nil_r.
  - cbn [eachFile filter].
    destruct (mimeType file =? GOOGLE_DOC_MIME)%string.
    + rewrite IH. cbn [map]. now rewrite <- app_assoc.
    + destruct (String.eqb_spec (mimeType file) FOLDER_MIME) as [E|_];
        [now elim Hfile | apply IH].
Qed.

(** X13: a drive without folders and with a single page of files is
    listed with one call, and the traversal returns exactly the files of
    the Google Docs MIME type, in the order listed, each with its id,
    name and parents and with the empty string in place of a missing
    modification time. *)
Theorem flat_drive_lists_its_docs (depth : nat) (trace : Trace) :
  let call := ListFiles accessToken driveId driveId None in
  let reply := service trace call in
  let listed : list DriveFile := files (reply_json reply) in
  reply_ok reply = true ->
  truthy_token (nextPageToken (reply_json reply : DriveFileListResponse))
  = None ->
  Forall (fun file => mimeType file <> FOLDER_MIME) listed ->
  listAllGoogleDocs service (S depth) accessToken driveId trace
  = Some (trace ++ [call],
          Resolved
            (map docInfo
               (filter (fun file =>
                          (mimeType file =? GOOGLE_DOC_MIME)%string)
                  listed))).
Proof.
  cbv zeta. intros Hok Hlast Hflat.
  unfold listAllGoogleDocs, listFilesRecursive. cbn [listFilesFrom].
  unfold bind at 1, listFiles, bind at 1, perform at 1.
  cbn [param_driveId param_folderId param_pageToken truthy_token].
  assert (Hparent : match (if truthy_string driveId then Some driveId
                           else None) with
                    | Some folderId => folderId
                    | None => driveId
                    end = driveId)
    by (destruct (truthy_string driveId); reflexivity).
  rewrite Hparent, Hok. cbn [negb]. unfold ret at 1.
  unfold bind at 1. rewrite (eachFile_flat _ Hflat).
  cbn [app]. now rewrite Hlast.
Qed.

End TraversalFacts.

Lemma traversal_reports_listed_docs_witness :
  exists new,
    [ListFiles "token" "drive" "drive" None] = [] ++ new
    /\ Forall (fun call => is_listing call = true) new
    /\ forall collected,
         Resolved [docInfo sample_file] = Resolved collected ->
         exists added,
           collected = [] ++ added
           /\ Forall
                (listed_as_doc (one_doc_world false) []
                   [ListFiles "token" "drive" "drive" None]) added.
Proof.
  apply (@traversal_reports_listed_docs (one_doc_world false)
           "token" "drive" 1 "drive" [] []
           [ListFiles "token" "drive" "drive" None]
           (Resolved [docInfo sample_file])).
  reflexivity.
Defined.

Lemma flat_drive_lists_its_docs_witness :
  listAllGoogleDocs (one_doc_world false) 1 "token" "drive" []
  = Some ([] ++ [ListFiles "token" "drive" "drive" None],
          Resolved
            (map docInfo
               (filter (fun file =>
                          (mimeType file =? GOOGLE_DOC_MIME)%string)
                  (files
                     (reply_json
                        (one_doc_world false []
                           (ListFiles "token" "drive" "drive" None))))))).
Proof.
  apply (@flat_drive_lists_its_docs (one_doc_world false) "token" "drive"
           0 []).
  - reflexivity.
  - reflexivity.
  - repeat constructor. discriminate.
Defined.

(* ===================================================================== *)
(** ** The Drive client: credentials and encoding                         *)
(* ===================================================================== *)

Lemma no_escaped_newline_after_replace (s : string) :
  has_escaped_newline (replace_escaped_newlines s) = false
  /\ forall c,
       has_escaped_newline (replace_escaped_newlines (String c s)) = false.
Proof.
  induction s as [|a s [IH1 IH2]].
  - split; [reflexivity | intros c; reflexivity].
  - split; [apply IH2|]. intros c.
    cbn [replace_escaped_newlines].
    destruct (Ascii.eqb c "\" && Ascii.eqb a "n")%bool eqn:Hpair.
    + pose proof IH1 as Hs.
      destruct (replace_escaped_newlines s) as [|d tl] eqn:E;
        [reflexivity|].
      cbn [has_escaped_newline]. cbn [has_escaped_newline] in Hs.
      exact Hs.
    + pose proof (IH2 a) as Ha.
      cbn [replace_escaped_newlines] in Ha.
      change (replace_escaped_newlines (String a s))
        with (match s with
              | String d rest' =>
                  if (Ascii.eqb a "\" && Ascii.eqb d "n")%bool
                  then String (ascii_of_nat 10)
                         (replace_escaped_newlines rest')
                  else String a (replace_escaped_newlines s)
              | EmptyString => String a EmptyString
              end).
      destruct s as [|d rest'].
      * cbn [has_escaped_newline]. rewrite Hpair. reflexivity.
      * destruct (Ascii.eqb a "\" && Ascii.eqb d "n")%bool eqn:Hnext.
        -- cbn [has_escaped_newline]. cbn [has_escaped_newline] in Ha.
           rewrite Ha.
           replace (Ascii.eqb (ascii_of_nat 10) "n") with false
             by reflexivity.
           now rewrite andb_false_r.
        -- cbn [has_escaped_newline]. cbn [has_escaped_newline] in Ha.
           rewrite Hpair. exact Ha.
Qed.

Lemma replace_keeps_clean_strings (s : string) :
  (has_escaped_newline s = false -> replace_escaped_newlines s = s)
  /\ forall c,
       has_escaped_newline (String c s) = false ->
       replace_escaped_newlines (String c s) = String c s.
Proof.
  induction s as [|a s [IH1 IH2]].
  - split; [reflexivity | intros c _; reflexivity].
  - split; [apply IH2|]. intros c Hclean.
    cbn [has_escaped_newline] in Hclean.
    apply orb_false_iff in Hclean. destruct Hclean as [Hpair Hrest].
    cbn [replace_escaped_newlines]. rewrite Hpair.
    f_equal. now apply IH2.
Qed.

(** X14: what [parseServiceAccountJson] does with the value that
    [JSON.parse] returned.  On [null] it fails with the engine's
    [TypeError] for reading a member of [null].  Otherwise it throws its
    own error exactly when [client_email] or [private_key] is missing or
    falsy.  Otherwise, when [private_key] is not a string, it fails with
    the engine's [TypeError] for calling a missing method.  In the
    remaining case it returns the [client_email] and [client_id] members
    as parsed and, as private key, the string with every backslash-n
    pair turned into a newline character: no such pair is left, and a
    key without one is returned unchanged. *)
Theorem service_account_is_validated
  (JSON_parse : string -> Settled Json) (json : string) (parsed : Json) :
  JSON_parse json = Resolved parsed ->
  let email := member "client_email" parsed in
  let key := member "private_key" parsed in
  match parseServiceAccountJson JSON_parse json with
  | Resolved credentials =>
      parsed <> JNull
      /\ truthy email = true
      /\ email = Some (client_email credentials)
      /\ client_id credentials = member "client_id" parsed
      /\ has_escaped_newline (private_key credentials) = false
      /\ exists text,
           key = Some (JString text)
           /\ text <> EmptyString
           /\ private_key credentials = replace_escaped_newlines text
           /\ (has_escaped_newline text = false ->
               private_key credentials = text)
  | Rejected message =>
      (parsed = JNull
       /\ message
          = "Cannot read properties of null (reading 'client_email')")
      \/ (parsed <> JNull
          /\ (truthy email = false \/ truthy key = false)
          /\ message
             = "Invalid service account JSON: missing client_email or private_key")
      \/ (parsed <> JNull
          /\ truthy email = true /\ truthy key = true
          /\ (forall text, key <> Some (JString text))
          /\ message = "parsed.private_key.replace is not a function")
  end.
Proof.
  intros Hparsed. cbv zeta. unfold parseServiceAccountJson.
  rewrite Hparsed.
  destruct (truthy (member "client_email" parsed)) eqn:Hemail;
    destruct (truthy (member "private_key" parsed)) eqn:Hkey;
    cbn [negb orb].
  - destruct (member "client_email" parsed) as [email|] eqn:Eemail;
      [|discriminate].
    destruct (member "private_key" parsed) as [[| | |text| |]|] eqn:Ekey;
      try discriminate;
      destruct parsed; try discriminate;
      try (right; right; repeat split; try discriminate;
           intros text'; discriminate).
    cbn [client_email private_key client_id].
    split; [discriminate|]. split; [reflexivity|]. split; [reflexivity|].
    split; [reflexivity|].
    split; [apply no_escaped_newline_after_replace|].
    exists text. split; [reflexivity|]. split.
    + intros ->. discriminate.
    + split; [reflexivity | apply replace_keeps_clean_strings].
  - destruct parsed; try discriminate;
      right; left; (split; [discriminate|]); split; [now right | reflexivity].
  - destruct parsed; try discriminate;
      right; left; (split; [discriminate|]); split; [now left | reflexivity].
  - destruct parsed;
      try (right; left; (split; [discriminate|]);
           split; [now left | reflexivity]).
    left. now split.
Qed.

Lemma service_account_is_validated_witness :
  match parseServiceAccountJson sample_parse "{}" with
  | Resolved credentials =>
      sample_account <> JNull
      /\ truthy (member "client_email" sample_account) = true
      /\ member "client_email" sample_account
         = Some (client_email credentials)
      /\ client_id credentials = member "client_id" sample_account
      /\ has_escaped_newline (private_key credentials) = false
      /\ exists text,
           member "private_key" sample_account = Some (JString text)
           /\ text <> EmptyString
           /\ private_key credentials = replace_escaped_newlines text
           /\ (has_escaped_newline text = false ->
               private_key credentials = text)
  | Rejected message =>
      (sample_account = JNull
       /\ message
          = "Cannot read properties of null (reading 'client_email')")
      \/ (sample_account <> JNull
          /\ (truthy (member "client_email" sample_account) = false
              \/ truthy (member "private_key" sample_account) = false)
          /\ message
             = "Invalid service account JSON: missing client_email or private_key")
      \/ (sample_account <> JNull
          /\ truthy (member "client_email" sample_account) = true
          /\ truthy (member "private_key" sample_account) = true
          /\ (forall text,
                member "private_key" sample_account <> Some (JString text))
          /\ message = "parsed.private_key.replace is not a function")
  end.
Proof.
  apply (@service_account_is_validated sample_parse "{}" sample_account).
  reflexivity.
Defined.

Lemma occurs_replace_all (from to c : ascii) (s : string) :
  Ascii.eqb to c = false ->
  occurs c (replace_all from to s)
  = if Ascii.eqb from c then false else occurs c s.
Proof.
  intros Hto. induction s as [|d s IH]; simpl.
  - now destruct (Ascii.eqb from c).
  - rewrite IH. destruct (Ascii.eqb_spec d from) as [->|Hd].
    + rewrite Hto. destruct (Ascii.eqb from c); reflexivity.
    + destruct (Ascii.eqb_spec from c) as [->|Hf]; [|reflexivity].
      destruct (Ascii.eqb_spec d c); [contradiction | reflexivity].
Qed.

Lemma strip_is_prefix (s : string) :
  exists padding,
    s = (strip_trailing_equals s ++ padding)%string
    /\ all_equals padding = true.
Proof.
  induction s as [|c s (padding & Hs & Hpad)].
  - now exists EmptyString.
  - cbn [strip_trailing_equals].
    destruct (strip_trailing_equals s) as [|k kept] eqn:E.
    + destruct (Ascii.eqb_spec c "=") as [->|Hc].
      * exists (String "=" padding). simpl in Hs. subst s.
        split; [reflexivity|]. simpl. exact Hpad.
      * exists padding. simpl. simpl in Hs. now subst s.
    + exists padding. split; [|exact Hpad]. simpl. now rewrite Hs at 1.
Qed.

Lemma occurs_append (c : ascii) (a b : string) :
  occurs c (a ++ b)%string = occurs c a || occurs c b.
Proof.
  induction a as [|d a IH]; simpl; [reflexivity|].
  now rewrite IH, orb_assoc.
Qed.

Lemma strip_has_no_trailing_equals (s : string) :
  ends_with_equals (strip_trailing_equals s) = false.
Proof.
  induction s as [|c s IH]; [reflexivity|].
  cbn [strip_trailing_equals].
  destruct (strip_trailing_equals s) as [|k kept].
  - destruct (Ascii.eqb c "=") eqn:Hc; [reflexivity|].
    simpl. exact Hc.
  - exact IH.
Qed.

(** X15: whatever [btoa] returns, [base64UrlEncode] yields a string
    without plus sign and without slash that does not end in an equals
    sign; it is the [btoa] output with every plus turned into a minus
    and every slash into an underscore, less a run of equals signs at
    its end. *)
Theorem base64url_is_url_safe
  (btoa : string -> string) (data : list ascii) :
  let encoded := base64UrlEncode btoa data in
  occurs "+" encoded = false
  /\ occurs "/" encoded = false
  /\ ends_with_equals encoded = false
  /\ exists padding,
       replace_all "/" "_"
         (replace_all "+" "-" (btoa (string_of_list_ascii data)))
       = (encoded ++ padding)%string
       /\ all_equals padding = true.
Proof.
  cbv zeta. unfold base64UrlEncode. cbv zeta.
  set (rewritten := replace_all "/" "_"
                      (replace_all "+" "-"
                         (btoa (string_of_list_ascii data)))).
  destruct (strip_is_prefix rewritten) as (padding & Hsplit & Hpad).
  assert (Hplus : occurs "+" rewritten = false).
  { unfold rewritten.
    rewrite (@occurs_replace_all "/" "_" "+") by reflexivity.
    cbn [Ascii.eqb Bool.eqb]. cbv iota.
    now rewrite (@occurs_replace_all "+" "-" "+") by reflexivity. }
  assert (Hslash : occurs "/" rewritten = false).
  { unfold rewritten.
    now rewrite (@occurs_replace_all "/" "_" "/") by reflexivity. }
  rewrite Hsplit, occurs_append in Hplus, Hslash.
  apply orb_false_iff in Hplus, Hslash.
  repeat split; try tauto.
  - apply strip_has_no_trailing_equals.
  - exists padding. split; [exact Hsplit | exact Hpad].
Qed.

(* ===================================================================== *)
(** ** The bounds of the model do not show in a settled run               *)
(* ===================================================================== *)

Section Bounds.

Variable service : Service.
Variable fromMarkdown : string -> Root.

Lemma bind_settles_alike (A B : Type) (m m' : Async A) (k k' : A -> Async B)
  (trace : Trace) (settled : Trace * Settled B) :
  (forall r, m trace = Some r -> m' trace = Some r) ->
  (forall a t r, k a t = Some r -> k' a t = Some r) ->
  bind m k trace = Some settled -> bind m' k' trace = Some settled.
Proof.
  intros Hm Hk. unfold bind.
  destruct (m trace) as [[trace1 [a|message]]|] eqn:E; [| |discriminate];
    rewrite (Hm _ eq_refl); [apply Hk | trivial].
Qed.

Lemma getBlockChildrenLoop_more_pages (apiKey blockId : string)
  (pages : nat) :
  forall more all cursor trace settled,
    pages <= more ->
    getBlockChildrenLoop service pages apiKey blockId all cursor trace
    = Some settled ->
    getBlockChildrenLoop service more apiKey blockId all cursor trace
    = Some settled.
Proof.
  induction pages as [|pages IH]; intros more all cursor trace settled Hle;
    [discriminate|].
  destruct more as [|more]; [lia|].
  cbn [getBlockChildrenLoop].
  apply bind_settles_alike; [trivial|].
  intros response t r.
  destruct (negb (reply_ok response)); [trivial|]. cbv zeta.
  destruct (truthy_token
              (if has_more (reply_json response)
               then next_cursor (reply_json response)
               else None)); [|trivial].
  apply IH. lia.
Qed.

(** A run of [updatePage] that settles within a bound on the pages of
    children settles in the same way within any larger bound. *)
Lemma updatePage_more_pages
  (pages more : nat) (apiKey pageId markdown driveModified : string)
  (trace : Trace) (settled : Trace * Settled unit) :
  pages <= more ->
  updatePage service fromMarkdown pages apiKey pageId markdown driveModified
    trace
  = Some settled ->
  updatePage service fromMarkdown more apiKey pageId markdown driveModified
    trace
  = Some settled.
Proof.
  intros Hle. unfold updatePage. cbv zeta.
  apply bind_settles_alike; [|trivial].
  intros r. unfold getBlockChildren.
  now apply getBlockChildrenLoop_more_pages.
Qed.

Lemma eachFile_settles_alike
  (enter enter' : string -> list GoogleDocInfo -> Async (list GoogleDocInfo)) :
  (forall folderId results trace r,
      enter folderId results trace = Some r ->
      enter' folderId results trace = Some r) ->
  forall remaining results trace r,
    eachFile enter remaining results trace = Some r ->
    eachFile enter' remaining results trace = Some r.
Proof.
  intros Henter. induction remaining as [|file rest IH];
    intros results trace r; [trivial|].
  cbn [eachFile].
  destruct (mimeType file =? GOOGLE_DOC_MIME)%string; [apply IH|].
  destruct (mimeType file =? FOLDER_MIME)%string; [|apply IH].
  apply bind_settles_alike; [apply Henter|].
  intros a t r'. apply IH.
Qed.

(** A traversal that settles within a bound on the nesting settles in
    the same way within any larger bound. *)
Lemma listFilesFrom_more_depth (accessToken driveId : string) (depth : nat) :
  forall more folderId pageToken results trace settled,
    depth <= more ->
    listFilesFrom service depth accessToken driveId folderId pageToken
      results trace
    = Some settled ->
    listFilesFrom service more accessToken driveId folderId pageToken
      results trace
    = Some settled.
Proof.
  induction depth as [|depth IH];
    intros more folderId pageToken results trace settled Hle;
    [discriminate|].
  destruct more as [|more]; [lia|].
  cbn [listFilesFrom].
  apply bind_settles_alike; [trivial|].
  intros response t r.
  apply bind_settles_alike.
  - intros r'. apply eachFile_settles_alike.
    intros f res t' r''. apply IH. lia.
  - intros results' t' r'.
    destruct (truthy_token (nextPageToken response)); [|trivial].
    apply IH. lia.
Qed.

End Bounds.


(* ===================================================================== *)
(** ** Pagination of the children of a page                               *)
(* ===================================================================== *)

Section PaginationFacts.

Variable service : Service.

Lemma getBlockChildrenLoop_fetches (apiKey blockId : string) (pages : nat) :
  forall all cursor trace trace' children,
    getBlockChildrenLoop service pages apiKey blockId all cursor trace
    = Some (trace', Resolved children) ->
    exists gets,
      trace' = trace ++ GetChildren apiKey blockId (truthy_token cursor)
                        :: gets
      /\ Forall (lists_children_of apiKey blockId) gets
      /\ children
         = all
           ++ fetched service trace
                (GetChildren apiKey blockId (truthy_token cursor) :: gets).
Proof.
  induction pages as [|pages IH]; intros all cursor trace trace' children;
    [discriminate|].
  cbn [getBlockChildrenLoop]. unfold bind at 1, perform at 1.
  set (call := GetChildren apiKey blockId (truthy_token cursor)).
  destruct (reply_ok (service trace call)); cbn [negb]; [|discriminate].
  cbv zeta.
  destruct (truthy_token
              (if has_more (reply_json (service trace call))
               then next_cursor (reply_json (service trace call))
               else None)) as [next|] eqn:Hnext.
  - intros Hrun. apply IH in Hrun.
    destruct Hrun as (gets & -> & Hgets & ->).
    eexists (_ :: gets). split; [right_assoc; reflexivity|].
    split; [constructor; [now eexists | exact Hgets]|].
    cbn [fetched]. right_assoc. reflexivity.
  - intros [= <- <-]. exists []. split; [reflexivity|].
    split; [constructor|]. cbn [fetched]. now rewrite app_nil_r.
Qed.

(** X16: [getBlockChildren] returns the children of the pages it
    fetched, in the order fetched, nothing left out and nothing added:
    when it resolves, its calls all list the children of the block, the
    first one without a start cursor, and the result is the
    concatenation of the [results] of the answers to these calls. *)
Theorem children_are_the_pages_fetched
  (pages : nat) (apiKey blockId : string) (trace trace' : Trace)
  (children : list NotionBlockChild) :
  getBlockChildren service pages apiKey blockId trace
  = Some (trace', Resolved children) ->
  exists gets,
    trace' = trace ++ GetChildren apiKey blockId None :: gets
    /\ Forall (lists_children_of apiKey blockId) gets
    /\ children
       = fetched service trace (GetChildren apiKey blockId None :: gets).
Proof.
  intros Hrun. apply getBlockChildrenLoop_fetches in Hrun.
  exact Hrun.
Qed.

End PaginationFacts.

Lemma children_are_the_pages_fetched_witness :
  exists gets,
    [GetChildren "key" "page" None]
    = [] ++ GetChildren "key" "page" None :: gets
    /\ Forall (lists_children_of "key" "page") gets
    /\ [{| child_id := "old-1"; child_type := "paragraph" |}]
       = fetched obliging [] (GetChildren "key" "page" None :: gets).
Proof.
  apply (@children_are_the_pages_fetched obliging 1 "key" "page" []
           [GetChildren "key" "page" None]
           [{| child_id := "old-1"; child_type := "paragraph" |}]).
  reflexivity.
Defined.

(* ===================================================================== *)
(** ** The text of a quote                                                *)
(* ===================================================================== *)

Lemma join_cons (sep first : string) (rest : list string) :
  rest <> [] ->
  join sep (first :: rest) = (first ++ sep ++ join sep rest)%string.
Proof. destruct rest; [contradiction | reflexivity]. Qed.

Lemma span_contents_of_nodes (nodes : list PhrasingContent) :
  span_contents (phrasingToRichText nodes) = getPhrasingText nodes.
Proof.
  apply span_contents_children, Forall_forall.
  intros node _. apply span_contents_node.
Qed.

Lemma paragraph_contributions (paragraphs : list (list PhrasingContent)) :
  span_contents (flat_map quote_contribution (map Paragraph paragraphs))
  = fold_right
      (fun nodes text => (getPhrasingText nodes ++ LF ++ text)%string)
      EmptyString paragraphs.
Proof.
  induction paragraphs as [|nodes rest IH]; [reflexivity|].
  cbn [map flat_map quote_contribution fold_right].
  rewrite !span_contents_app, IH, span_contents_of_nodes.
  change (span_contents [newline_span]) with LF.
  now rewrite append_associative.
Qed.

Lemma join_paragraph_texts (texts : list string) (last : string) :
  join LF (texts ++ [last])
  = (fold_right (fun text rest => (text ++ LF ++ rest)%string)
       EmptyString texts ++ last)%string.
Proof.
  induction texts as [|text rest IH]; [reflexivity|].
  cbn [app fold_right]. rewrite join_cons by (now destruct rest).
  rewrite IH. now rewrite !append_associative.
Qed.

(** X17: the text of a quote made of paragraphs is the paragraphs' plain
    text joined by newlines: for a blockquote whose children are all
    paragraphs (at least one), the contents of the spans of the quote
    block, concatenated, are the strings [getPhrasingText] gives for the
    paragraphs, with one newline between consecutive ones and none at
    the end. *)
Theorem quote_text_of_paragraphs
  (before : list (list PhrasingContent)) (last : list PhrasingContent) :
  exists rich_text,
    processBlock (Blockquote (map Paragraph (before ++ [last])))
    = [quote rich_text]
    /\ span_contents rich_text
       = join LF (map getPhrasingText (before ++ [last])).
Proof.
  rewrite processBlock_Blockquote, map_app, flat_map_app.
  cbn [map flat_map quote_contribution]. rewrite app_nil_r, app_assoc.
  remember (flat_map quote_contribution (map Paragraph before)
            ++ phrasingToRichText last) as body.
  destruct (body ++ [newline_span]) eqn:E;
    [destruct body; discriminate|].
  rewrite <- E, removelast_last. eexists. split; [reflexivity|].
  subst body.
  rewrite span_contents_app, paragraph_contributions,
    span_contents_of_nodes.
  rewrite map_app. cbn [map]. rewrite join_paragraph_texts.
  f_equal. clear. induction before as [|nodes rest IH]; [reflexivity|].
  cbn [map fold_right]. now rewrite IH.
Qed.
